(* ===== verification/_CoqProject ===== *)
-Q . S2P
Prelude.v
StdQueue.v
Sync.v
State.v
Api.v
Worker.v
System.v
Invariants.v
Wellformed.v
Fifo.v
Progress.v
Lifecycle.v
Shutdown.v
Termination.v
LoopTest.v
Readings.v
Callback.v
Delivery.v
Failure.v
Spec.v
Refinement.v
Scenarios.v
