(* ===== verification/Prelude.v ===== *)
(** * QueueThread: a verified model of the single-worker work queue

    The program is one C++ class template, [QueueThread<T>]
    (src/QueueThread.h): producers hand items to [AddQueueData], one
    background thread ([QueueProcessThread]) waits on a condition variable,
    swaps the whole pending queue out under the buffer mutex and passes the
    items one by one to the registered callback ([ProcessQueueData]).  The
    owner registers the callback with [RegisterQueueProcessFunc] and starts
    and stops the thread with [Start] and [Stop]; the destructor calls
    [Stop].

    ** The model, file by file

    - [Prelude] (this file): the notation scope [qt_scope], the tactics and
      the hint database [qt] the other files share, generic lemmas on lists
      and options.
    - [StdQueue]: [std::queue<T>] as the class uses it.  The interface is the
      type class [FifoQueue] (operations [q_new], [q_push], [q_empty],
      [q_front], [q_pop] with their laws over the abstraction [items]); the
      instance [list_fifo] is the executable model.  Everything about the
      class is proved against the interface.  Queues are compared up to
      their contents ([q_equiv], with [Proper] instances for the operations).
    - [Sync]: thread identities [Tid], [std::mutex] ([StdMutex.lock],
      [StdMutex.unlock], [StdMutex.lock_guard]), [std::condition_variable] as
      the list of blocked threads ([CondVar.wait], [CondVar.notify_all],
      [CondVar.wake] for spurious wakeups) and the [std::thread] handle
      ([StdThread.make_unique], and [StdThread.join], which blocks, returns
      or throws).
    - [State]: the data members (lines 29-35) as the record [QueueThread];
      the processing function as the record [Callback], what a call does
      to the state it closes over together with the way the call ends
      ([Completion]: it returns, throws or never returns); the control
      points of the worker ([WorkerPc], [ProcPc]) and of the owner
      ([OwnerPc]); the whole system [System], which adds the worker's local
      [queue] (line 133), the state [Env] the callbacks act on, and two
      ghost fields, [enqueued] and [log], that record the history.
    - [Api]: one function for each operation a client calls:
      [RegisterQueueProcessFunc] (lines 50-55), [Start] (57-70),
      [AddQueueData] (97-103), [IsRunning] (105-112), and [Stop] (79-95) cut
      where another thread may run: [Stop_returns_early], [Stop_request],
      [Stop_notify], [Stop_join].  [destroy_clean] is the end of the
      destructor (44-48).
    - [Worker]: [QueueProcessThread] (114-139) and [ProcessQueueData]
      (141-157) as the step function [worker_step] / [proc_step], and the
      same steps as the relation [WorkerStep], one rule for each branch.
      The call of line 155 has three outcomes: it returns and the worker
      goes on, it throws and [terminate] ends the process, or it never
      returns and the worker has no further step.
    - [System]: the interleaving of the threads.  An [Event] names the
      thread that moves; [step] is the transition function, [Step] the
      transition relation, [run] executes a schedule and [reachable] is what
      the rules lead to from the constructor's state [init].
    - [Wellformed]: the invariant as a function to [bool], [well_formed].
    - [Spec]: the contract, a sequential machine with one pending sequence,
      one callback slot and a flag that a call has thrown ([a_step],
      [a_run]).
    - [Scenarios]: the model run on numbers, with the schedules of the
      specification, and the theorems applied at concrete states.

    ** The theorems, file by file

    - [Worker], [System]: the executable semantics and the relations agree
      ([worker_step_iff], [step_iff], [reachable_iff_run]).
    - [Invariants]: what holds in every reachable state ([reachable_inv]):
      the thread handle, [m_bExit] and the control points go together
      ([life_inv]); each mutex is owned by the thread the control point says
      ([lock_inv]); a blocked worker has an empty queue and a notification
      on its way if it was asked to stop ([wait_inv]); line 155 never calls
      through a null pointer ([body_inv]).
    - [Wellformed]: the test [well_formed] decides the invariant
      ([well_formed_inv]) and every operation preserves it
      ([well_formed_step]).
    - [Fifo]: every enqueued item is handled, in the worker's hands or
      queued, in order ([reachable_conserved]); hence first-in-first-out
      delivery ([handled_prefix]), no duplicates ([handled_NoDup]), and
      nothing pending when the worker sleeps ([idle_all_handled]).
    - [Callback]: each call goes to the callback registered at that moment
      ([call_uses_registered]); no drops once a callback is registered
      ([registered_never_drops]); a batch met by an empty slot is dropped
      whole ([null_callback_drops_batch]).
    - [Failure]: what a call that does not return does to the class.  A
      call that throws ends the process ([throw_is_fatal]), an empty
      [std::function] does so at the first item
      ([empty_function_is_fatal]), a call that hangs blocks the worker,
      the registrations and [Stop] for good ([hung_call_blocks]); none of
      this happens while every registered callback returns
      ([safe_schedule_never_crashes]).
    - [Refinement]: the class implements the contract of [Spec]
      ([refines_step], [refinement]).
    - [Progress]: the worker never deadlocks ([worker_progress]); when
      producers and registrations have to wait ([add_enabled],
      [register_enabled]); an idle worker sleeps ([idle_worker_sleeps]); the
      two reads that no lock orders ([check_races_with_register],
      [loop_test_races_with_stop]).
    - [Lifecycle]: [Start], [Stop], [IsRunning] and the destructor
      ([Start_never_false], [Start_throws], [stop_waits], [stop_again],
      [destructor_clean]), and what the class does not do after [Stop]
      ([no_restart], [stale_handle]).  The worker state of the
      specification ([WorkerState], read off the class by [worker_state])
      moves by the transitions of [LifeStep] and by no other
      ([lifecycle_refines]).
    - [Shutdown]: what [Stop] does to the pending items under each reading
      of line 128 ([exit_drains], [exit_abandons]), from the call of [Stop]
      to its return when the worker is idle ([graceful_stop]), and when it
      overtakes the new thread ([stop_right_after_start]).
    - [Termination]: [Stop] comes to an end ([worker_steps_bounded],
      [stop_completes]), and a worker that is not asked to stop handles
      everything that is pending and goes to sleep ([worker_drains]); both
      for a callback that returns from every call.
    - [LoopTest]: a worker that meets [m_bExit] at the loop test of line 118
      leaves what is in [m_queue] behind ([loop_test_abandons]).
    - [Readings]: the two readings of line 128 give the same runs until
      [Stop] or the destructor is called ([readings_agree_until_stop]).
    - [Delivery]: the round trip of the items, from [AddQueueData] by any
      threads in any order to the calls of the callback
      ([delivery_roundtrip]).

    ** Modelling decisions

    - A critical section of a client operation (a [lock_guard] scope) is one
      atomic step, enabled when the mutex is free; a call that would block
      is a step that is not enabled ([None]).  The model does not commit a
      thread to a call that is not enabled: the thread may make another
      call instead.  The worker's code is split at
      every lock, unlock, wait, test and call, so every interleaving the
      mutexes allow is a schedule.
    - Memory is sequentially consistent.  The two reads the code makes
      without a lock (lines 118 and 144) are atomic steps of the model; the
      theorems of [Progress] show that they are enabled together with the
      conflicting write, which in C++ is a data race.
    - A callback is a function [T -> Env -> Env] on the state it closes
      over, with the way each call ends ([cb_ends]).  A call is one step of
      the worker.  An exception that leaves the call leaves the thread
      function as well, since nothing catches it, and [std::thread] then
      calls [std::terminate]: the model goes to a state in which no event
      is enabled ([terminate] sets the owner's control point to
      [OTerminated]).  An empty [std::function] is the callback
      [empty_function], whose every call throws.
    - Line 128 names [queue] before its declaration (line 133).  The model
      takes the queue that name denotes as a parameter [exit_ref]: [QLocal]
      (an empty local queue, the smallest repair) or [QShared] ([m_queue],
      the final drain the specification describes).  Theorems that do not
      depend on the reading hold for every [exit_ref].
    - There is one owner thread, which calls [Start], [Stop] and the
      destructor one after the other; producers are any number of threads.
      [std::make_unique] returns a thread or throws ([spawn_ok]).  The
      owner catches what [Start] throws: after the exception it is between
      two calls again, with the object unchanged.  An exception of [join]
      would leave [Stop] ([stop_throw]); the guard of line 91 rules it out
      ([Stop_join_never_throws]).
    - [std::queue], [std::mutex], [std::condition_variable] and
      [std::thread] are modelled by their interface, not their
      implementation.

    ** Not modelled

    - A callback that calls back into the object ([AddQueueData],
      [RegisterQueueProcessFunc] or [Stop] from inside the call): the class
      never does so itself, and what such a callback does is code outside
      the repository.  A call is one step that acts on [Env] alone.
    - The C++ memory model: the two unordered reads are atomic steps here,
      and the theorems of [Progress] only show that they race.
    - Several owners: [Start], [Stop] and the destructor called from more
      than one thread at a time.
    - The implementation of the standard library, and the memory the
      unbounded queue takes.

    ** Bounds and fuel

    No definition uses fuel: [step] and [worker_step] are total functions
    into [option], and [run] recurses on the schedule.  Termination of the
    worker after [Stop] is proved with the measure [steps_left], three steps
    for each pending item plus the steps of the loop around them;
    [stop_completes] gives the schedule of [steps_left] worker steps that
    ends the thread, so the bound is the measure itself.  [work_left] is
    the same for a worker that is not asked to stop, up to the moment it
    blocks in [wait].  Both go through [worker_runs_out], by well-founded
    induction on the measure.
*)

From stdpp Require Export base tactics option list relations.

Declare Scope qt_scope.
Delimit Scope qt_scope with qt.

(** [s |> f |> g]: apply the updates [f] then [g] to [s], in program order. *)
Notation "s |> f" := (f s)
  (at level 45, left associativity, only parsing) : qt_scope.

#[global] Open Scope qt_scope.

Create HintDb qt discriminated.
Create Rewrite HintDb qt.

(** Inversion that leaves no residue. *)
Ltac invert H := inversion H; subst; clear H.

(** Split on every [match], [if] and option bind that a model function
    exposes, and simplify the resulting equations. *)
Ltac split_cases :=
  repeat (simplify_option_eq || case_match || case_decide || case_bool_decide).

Section lists.
Context {A : Type}.
Implicit Types (l k : list A) (x : A).

(** A non-empty list is its head followed by its tail. *)
Lemma head_tail_eq l x : head l = Some x → l = x :: tail l.
Proof. by destruct l; intros [= ->]. Qed.

(** Moving the first element of the right part to the end of the left part. *)
Lemma app_snoc_cons l k x : (l ++ [x]) ++ k = l ++ x :: k.
Proof. by rewrite <- app_assoc. Qed.

Lemma head_None_nil l : head l = None ↔ l = [].
Proof. by destruct l. Qed.

Lemma prefix_snoc_mid l k x : l ++ [x] `prefix_of` l ++ x :: k.
Proof. exists k. by rewrite app_snoc_cons. Qed.

End lists.

(** Sequencing after a computation that has succeeded. *)
Lemma bind_Some_l {A B} (f : A → option B) (x : A) : Some x ≫= f = f x.
Proof. done. Qed.

#[export] Hint Rewrite @app_nil_r @app_nil_l @app_snoc_cons : qt.
#[export] Hint Resolve prefix_snoc_mid prefix_app_r : qt.
