(* ===== verification/StdQueue.v ===== *)
(** * [std::queue<T>] as [QueueThread] uses it

    The class keeps its pending items in a [std::queue<T>] ([m_queue],
    line 31) and calls [push] (line 101), [empty] (lines 123 and 149),
    [front] and [pop] (lines 151-152) and [swap] (line 134) on it.  The type
    class [FifoQueue] is that interface with its laws, stated over the
    sequence [items] of the elements from front to back; [list_fifo] is the
    executable instance.  [front] and [pop] of an empty queue are undefined
    behaviour in C++: the model returns [None]. *)

From S2P Require Import Prelude.

Class FifoQueue (T Q : Type) := {
  items : Q → list T;
  q_new : Q;
  q_push : T → Q → Q;
  q_empty : Q → bool;
  q_front : Q → option T;
  q_pop : Q → option Q;
  items_new : items q_new = [];
  items_push x q : items (q_push x q) = items q ++ [x];
  q_empty_spec q : q_empty q = match items q with [] => true | _ => false end;
  q_front_spec q : q_front q = head (items q);
  q_pop_spec q :
    items <$> q_pop q = match items q with [] => None | _ :: l => Some l end
}.

#[global] Hint Mode FifoQueue - ! : typeclass_instances.

Module StdQueue.

(** The executable model: the front of the queue is the head of the list. *)
Definition push {T} (x : T) (q : list T) : list T := q ++ [x].

Definition empty {T} (q : list T) : bool :=
  match q with [] => true | _ => false end.

Definition front {T} (q : list T) : option T := head q.

Definition pop {T} (q : list T) : option (list T) :=
  match q with [] => None | _ :: l => Some l end.

(** [a.swap(b)] exchanges the contents of the two queues. *)
Definition swap {Q} (a b : Q) : Q * Q := (b, a).

End StdQueue.

#[export, refine] Instance list_fifo (T : Type) : FifoQueue T (list T) := {
  items q := q;
  q_new := [];
  q_push := StdQueue.push;
  q_empty := StdQueue.empty;
  q_front := StdQueue.front;
  q_pop := StdQueue.pop
}.
Proof. all: by intros; try destruct q. Defined.

Section laws.
Context `{FifoQueue T Q}.
Implicit Types (q : Q) (x : T).

Lemma q_empty_true q : q_empty q = true ↔ items q = [].
Proof. rewrite q_empty_spec. by destruct (items q). Qed.

Lemma q_empty_false q : q_empty q = false ↔ items q ≠ [].
Proof. rewrite q_empty_spec. by destruct (items q). Qed.

(** What [front] then [pop] return on a queue that is not empty. *)
Lemma q_front_pop q x q' :
  q_front q = Some x → q_pop q = Some q' → items q = x :: items q'.
Proof.
  rewrite q_front_spec. intros Hf Hp. pose proof (q_pop_spec q) as Hs.
  rewrite Hp in Hs. destruct (items q); by simplify_eq/=.
Qed.

(** [front] and [pop] are defined exactly when [empty] is false: the guard
    of the loop at line 149 rules the undefined behaviour out. *)
Lemma q_nonempty_front_pop q :
  q_empty q = false → ∃ x q', q_front q = Some x ∧ q_pop q = Some q'.
Proof.
  rewrite q_empty_false, q_front_spec. intros Hne.
  pose proof (q_pop_spec q) as Hs. destruct (items q) as [|x l]; [done|].
  destruct (q_pop q) as [q'|]; [|done]. by exists x, q'.
Qed.

(** A queue that has a front element is not empty, and can be popped. *)
Lemma q_front_Some q x :
  q_front q = Some x → q_empty q = false ∧ ∃ q', q_pop q = Some q'.
Proof.
  intros Hx. assert (q_empty q = false) as He.
  { apply q_empty_false. rewrite q_front_spec in Hx. by destruct (items q). }
  destruct (q_nonempty_front_pop q He) as (_ & q' & _ & ?). eauto.
Qed.

Lemma q_pop_None q : q_pop q = None ↔ items q = [].
Proof.
  pose proof (q_pop_spec q) as Hs.
  destruct (q_pop q), (items q); naive_solver.
Qed.

(** ** Queues up to their contents

    Two queues are equivalent when they hold the same items in the same
    order; no operation of the interface tells them apart. *)
Definition q_equiv q1 q2 : Prop := items q1 = items q2.

#[export] Instance q_equiv_equivalence : Equivalence q_equiv.
Proof. unfold q_equiv. split; [done|by intros ??|by intros ??? -> ->]. Qed.

#[export] Instance q_push_proper x : Proper (q_equiv ==> q_equiv) (q_push x).
Proof. unfold q_equiv. intros q1 q2 Hq. by rewrite !items_push, Hq. Qed.

#[export] Instance q_empty_proper : Proper (q_equiv ==> eq) q_empty.
Proof. unfold q_equiv. intros q1 q2 Hq. by rewrite !q_empty_spec, Hq. Qed.

#[export] Instance q_front_proper : Proper (q_equiv ==> eq) q_front.
Proof. unfold q_equiv. intros q1 q2 Hq. by rewrite !q_front_spec, Hq. Qed.

#[export] Instance q_pop_proper : Proper (q_equiv ==> option_Forall2 q_equiv) q_pop.
Proof.
  unfold q_equiv. intros q1 q2 Hq.
  pose proof (q_pop_spec q1) as H1. pose proof (q_pop_spec q2) as H2.
  rewrite Hq in H1.
  destruct (q_pop q1), (q_pop q2), (items q2); simplify_eq/=; constructor.
  congruence.
Qed.

(** Pushing the same items onto equivalent queues gives equivalent
    queues. *)
Lemma push_all_proper xs :
  Proper (q_equiv ==> q_equiv) (λ q, foldl (flip q_push) q xs).
Proof.
  induction xs as [|x xs IH]; intros q1 q2 Hq; simpl; [done|].
  apply IH. unfold flip. by rewrite Hq.
Qed.

Lemma items_push_all xs q : items (foldl (flip q_push) q xs) = items q ++ xs.
Proof.
  revert q. induction xs as [|x xs IH]; intros q; simpl.
  - by rewrite app_nil_r.
  - rewrite IH. unfold flip. by rewrite items_push, <- app_assoc.
Qed.

End laws.

#[export] Hint Rewrite @items_new @items_push : qt.
