(* ===== verification/Sync.v ===== *)
(** * The synchronisation primitives of the standard library

    [std::mutex] ([m_mutexThread] and [m_mutexFunc], lines 32-33),
    [std::condition_variable] ([m_cv], line 30) and the [std::thread] handle
    behind [m_pThread] (line 29), with the operations the class calls on
    them.  An operation that would block returns [None]: the step that
    contains it is not enabled until another thread has moved. *)

From S2P Require Import Prelude.

(** The threads of the system: the owner of the object, the worker it
    starts, and any number of producers. *)
Inductive Tid := TOwner | TWorker | TProducer (n : nat).

#[export] Instance Tid_eq_dec : EqDecision Tid.
Proof. solve_decision. Defined.

(** A mutex is the thread that owns it, if any. *)
Definition Mutex := option Tid.

Module StdMutex.

Definition free : Mutex := None.

(** [lock] blocks while the mutex is owned, also by the caller itself. *)
Definition lock (t : Tid) (m : Mutex) : option Mutex :=
  match m with
  | None => Some (Some t)
  | Some _ => None
  end.

(** [unlock] by a thread that does not own the mutex is undefined. *)
Definition unlock (t : Tid) (m : Mutex) : option Mutex :=
  if decide (m = Some t) then Some None else None.

(** A [std::lock_guard] scope that runs without blocking inside: the mutex
    is taken at the opening brace and released at the closing one. *)
Definition lock_guard (t : Tid) (m : Mutex) : option Mutex :=
  m1 ← lock t m; unlock t m1.

End StdMutex.

(** A condition variable is the list of the threads blocked in [wait]. *)
Definition CondVar := list Tid.

Module CondVar.

Definition empty : CondVar := [].

(** [wait] adds the caller to the blocked threads (its mutex is released by
    the caller's step). *)
Definition wait (t : Tid) (cv : CondVar) : CondVar := t :: cv.

Definition notify_all (cv : CondVar) : CondVar := [].

Definition blocked (t : Tid) (cv : CondVar) : bool := bool_decide (t ∈ cv).

(** A spurious wakeup of [t], which the standard allows. *)
Definition wake (t : Tid) (cv : CondVar) : CondVar :=
  filter (λ t', t' ≠ t) cv.

End CondVar.

(** The [std::thread] object: all the class observes of it is whether it is
    joinable. *)
Record StdThread := mkThread { joinable : bool }.

#[export] Instance StdThread_eq_dec : EqDecision StdThread.
Proof. solve_decision. Defined.

Inductive Exn : Set := system_error.

#[export] Instance Exn_eq_dec : EqDecision Exn.
Proof. solve_decision. Defined.

Module StdThread.

(** [std::make_unique<std::thread>(...)] (line 63): a pointer to a running,
    joinable thread, or an exception when the thread cannot be created.  It
    never returns a null pointer. *)
Definition make_unique (spawn_ok : bool) : Exn + option StdThread :=
  if spawn_ok then inr (Some (mkThread true)) else inl system_error.

(** [join] on a joinable thread returns once the thread function has
    returned, and blocks until then ([None]); the handle is not joinable
    afterwards.  On a thread that is not joinable it throws
    [std::system_error]. *)
Definition join (finished : bool) (th : StdThread) : option (Exn + StdThread) :=
  if joinable th then
    if finished then Some (inr (mkThread false)) else None
  else Some (inl system_error).

End StdThread.

Section mutex_lemmas.
Implicit Types (t : Tid) (m : Mutex).

Lemma lock_Some t m m' : StdMutex.lock t m = Some m' ↔ m = None ∧ m' = Some t.
Proof. destruct m; simpl; naive_solver. Qed.

Lemma lock_None t m : StdMutex.lock t m = None ↔ is_Some m.
Proof. destruct m; simpl; split; (done || by intros [? [=]] || eauto). Qed.

Lemma unlock_Some t m m' :
  StdMutex.unlock t m = Some m' ↔ m = Some t ∧ m' = None.
Proof. unfold StdMutex.unlock. case_decide; naive_solver. Qed.

Lemma lock_guard_Some t m m' :
  StdMutex.lock_guard t m = Some m' ↔ m = None ∧ m' = None.
Proof.
  unfold StdMutex.lock_guard. destruct m; simpl; [naive_solver|].
  rewrite unlock_Some. naive_solver.
Qed.

Lemma lock_guard_is_Some t m : is_Some (StdMutex.lock_guard t m) ↔ m = None.
Proof.
  rewrite is_Some_alt. destruct (StdMutex.lock_guard t m) eqn:E.
  - by apply lock_guard_Some in E as [-> _].
  - split; [done|]. intros ->. unfold StdMutex.lock_guard in E.
    simpl in E. by rewrite (proj2 (unlock_Some t (Some t) None)) in E.
Qed.

(** A critical section under a [lock_guard]: it runs exactly when the
    mutex is free, and the mutex is free again afterwards. *)
Lemma lock_guard_bind {A} t m (f : Mutex → A) (a : A) :
  (m' ← StdMutex.lock_guard t m; Some (f m')) = Some a ↔ m = None ∧ a = f None.
Proof.
  destruct (StdMutex.lock_guard t m) as [m1|] eqn:E; simpl.
  - apply lock_guard_Some in E as [-> ->]. naive_solver.
  - split; [done|]. intros [Hm _]. apply (lock_guard_is_Some t) in Hm.
    rewrite E in Hm. by destruct Hm.
Qed.

(** Mutual exclusion: a mutex that one thread has locked cannot be locked
    by any thread until it is unlocked. *)
Lemma lock_excludes t t' m m' :
  StdMutex.lock t m = Some m' → StdMutex.lock t' m' = None.
Proof. intros [-> ->]%lock_Some. done. Qed.

Lemma lock_unlock t m m' :
  StdMutex.lock t m = Some m' → StdMutex.unlock t m' = Some m.
Proof. intros [-> ->]%lock_Some. by apply unlock_Some. Qed.

End mutex_lemmas.

Section condvar_lemmas.
Implicit Types (t : Tid) (cv : CondVar).

Lemma blocked_wait t cv : CondVar.blocked t (CondVar.wait t cv) = true.
Proof. apply bool_decide_eq_true. unfold CondVar.wait. set_solver. Qed.

Lemma blocked_notify_all t cv :
  CondVar.blocked t (CondVar.notify_all cv) = false.
Proof. apply bool_decide_eq_false. unfold CondVar.notify_all. set_solver. Qed.

Lemma blocked_wake t cv : CondVar.blocked t (CondVar.wake t cv) = false.
Proof.
  apply bool_decide_eq_false. unfold CondVar.wake.
  rewrite list_elem_of_filter. naive_solver.
Qed.

Lemma blocked_empty t : CondVar.blocked t CondVar.empty = false.
Proof. apply bool_decide_eq_false. unfold CondVar.empty. set_solver. Qed.

End condvar_lemmas.

#[export] Hint Rewrite blocked_wait blocked_notify_all blocked_wake
  blocked_empty : qt.
