(* ===== verification/State.v ===== *)
(** * The state of a [QueueThread<T>] object and of the threads around it

    [QueueThread] holds the data members of the class (lines 29-35).
    [System] adds what the class does not store but its behaviour depends
    on: where the worker thread stands in [QueueProcessThread] and
    [ProcessQueueData] ([WorkerPc], with its local [queue] of line 133),
    where the owner stands in [Start(func)], [Stop] or the destructor
    ([OwnerPc]), the state [Env] the callbacks act on, and two ghost fields
    that record the history: the items enqueued so far and what became of
    the items the worker has handled.  [Callback] is the processing
    function: what a call does, and whether it returns. *)

From S2P Require Import Prelude StdQueue Sync.

(** How a call of the processing function ends. *)
Inductive Completion : Set :=
| Returns     (* the call returns *)
| Throws      (* an exception leaves the call *)
| Hangs.      (* the call never returns *)

#[export] Instance Completion_eq_dec : EqDecision Completion.
Proof. solve_decision. Defined.

(** The processing function, [std::function<void(T)>].  A call acts on the
    state the function closes over ([cb_run]) and ends in one of the three
    ways of [Completion] ([cb_ends]); when the call throws, [cb_run] is the
    state it has left behind. *)
Record Callback (T Env : Type) := mkCallback {
  cb_run :> T → Env → Env;
  cb_ends : T → Env → Completion
}.

Arguments mkCallback {T Env} cb_run cb_ends.
Arguments cb_run {T Env} _ _ _.
Arguments cb_ends {T Env} _ _ _.

(** A function that always returns. *)
Definition returning {T Env} (g : T → Env → Env) : Callback T Env :=
  mkCallback g (λ _ _, Returns).

(** A [std::function] without a target: every call throws
    [std::bad_function_call]. *)
Definition empty_function {T Env} : Callback T Env :=
  mkCallback (λ _ e, e) (λ _ _, Throws).

(** Every call of the function returns. *)
Definition always_returns {T Env} (f : Callback T Env) : Prop :=
  ∀ x e, cb_ends f x e = Returns.

Record QueueThread (T Env Q : Type) := mkQueueThread {
  m_pThread : option StdThread;
  m_cv : CondVar;
  m_queue : Q;
  m_mutexThread : Mutex;
  m_mutexFunc : Mutex;
  m_pFunc : option (Callback T Env);
  m_bExit : bool
}.

Arguments mkQueueThread {T Env Q}.
Arguments m_pThread {T Env Q} _.
Arguments m_cv {T Env Q} _.
Arguments m_queue {T Env Q} _.
Arguments m_mutexThread {T Env Q} _.
Arguments m_mutexFunc {T Env Q} _.
Arguments m_pFunc {T Env Q} _.
Arguments m_bExit {T Env Q} _.

(** Which queue the reference parameter of [ProcessQueueData] denotes. *)
Inductive QRef := QLocal | QShared.

#[export] Instance QRef_eq_dec : EqDecision QRef.
Proof. solve_decision. Defined.

(** The call site [ProcessQueueData] returns to: line 137 inside the loop,
    or line 128 on the exit path. *)
Inductive Ret := RetLoop | RetExit.

#[export] Instance Ret_eq_dec : EqDecision Ret.
Proof. solve_decision. Defined.

(** Control points of [ProcessQueueData] (lines 142-157). *)
Inductive ProcPc (T : Type) :=
| PCheck                 (* line 144: about to test m_pFunc *)
| PLoop                  (* line 149: about to test queue.empty() *)
| PLockFunc (data : T)   (* line 154: item popped, waiting for m_mutexFunc *)
| PInvoke (data : T).    (* line 155: m_mutexFunc held, about to call *)

Arguments PCheck {T}.
Arguments PLoop {T}.
Arguments PLockFunc {T} data.
Arguments PInvoke {T} data.

(** Control points of the worker thread, [QueueProcessThread]
    (lines 115-139). *)
Inductive WorkerPc (T : Type) :=
| WNotStarted                       (* no thread has been created *)
| WLoopHead                         (* line 118: about to test !m_bExit *)
| WLock                             (* line 120: at lock.lock() *)
| WWaitCheck                        (* lines 121-124: mutex held, testing the predicate *)
| WBlocked                          (* inside wait: mutex released *)
| WAfterWait                        (* line 126: mutex held, predicate true *)
| WProc (r : Ret) (p : ProcPc T)    (* inside ProcessQueueData *)
| WExitUnlock                       (* line 129: at lock.unlock() *)
| WDone                             (* the thread function has returned *)
| WTerminate (r : Ret).             (* an exception has left the call of line 155:
                                       std::terminate has ended the process *)

Arguments WNotStarted {T}.
Arguments WLoopHead {T}.
Arguments WLock {T}.
Arguments WWaitCheck {T}.
Arguments WBlocked {T}.
Arguments WAfterWait {T}.
Arguments WProc {T} r p.
Arguments WExitUnlock {T}.
Arguments WDone {T}.
Arguments WTerminate {T} r.

(** Who called [Stop]: the owner, or the destructor (line 47). *)
Inductive Cont := KReturn | KDestroy.

#[export] Instance Cont_eq_dec : EqDecision Cont.
Proof. solve_decision. Defined.

(** Control points of the owner thread inside an operation that takes
    more than one step. *)
Inductive OwnerPc :=
| OIdle                       (* between two calls *)
| OStartSpawn                 (* Start(func), line 76: callback registered *)
| OStopNotify (k : Cont)      (* Stop, line 90: m_bExit set, at notify_all *)
| OStopJoin (k : Cont)        (* Stop, line 91: at joinable()/join() *)
| ODestroyed                  (* the object is gone *)
| OTerminated.                (* std::terminate has ended the process *)

#[export] Instance OwnerPc_eq_dec : EqDecision OwnerPc.
Proof. solve_decision. Defined.

(** What became of an item the worker took out of a queue. *)
Inductive Outcome (T Env : Type) :=
| Delivered (f : Callback T Env)    (* passed to the callback [f] *)
| Dropped.                          (* discarded: no callback was registered *)

Arguments Delivered {T Env} f.
Arguments Dropped {T Env}.

Record System (T Env Q : Type) := mkSystem {
  obj : QueueThread T Env Q;
  wpc : WorkerPc T;
  wqueue : Q;
  opc : OwnerPc;
  env : Env;
  enqueued : list T;
  log : list (T * Outcome T Env)
}.

Arguments mkSystem {T Env Q}.
Arguments obj {T Env Q} _.
Arguments wpc {T Env Q} _.
Arguments wqueue {T Env Q} _.
Arguments opc {T Env Q} _.
Arguments env {T Env Q} _.
Arguments enqueued {T Env Q} _.
Arguments log {T Env Q} _.

Section updates.
Context {T Env Q : Type}.
#[local] Abbreviation Obj := (QueueThread T Env Q).
#[local] Abbreviation Sys := (System T Env Q).
Implicit Types (o : Obj) (s : Sys).

Definition set_m_pThread (v : option StdThread) o : Obj :=
  mkQueueThread v (m_cv o) (m_queue o) (m_mutexThread o) (m_mutexFunc o)
    (m_pFunc o) (m_bExit o).
Definition set_m_cv (v : CondVar) o : Obj :=
  mkQueueThread (m_pThread o) v (m_queue o) (m_mutexThread o) (m_mutexFunc o)
    (m_pFunc o) (m_bExit o).
Definition set_m_queue (v : Q) o : Obj :=
  mkQueueThread (m_pThread o) (m_cv o) v (m_mutexThread o) (m_mutexFunc o)
    (m_pFunc o) (m_bExit o).
Definition set_m_mutexThread (v : Mutex) o : Obj :=
  mkQueueThread (m_pThread o) (m_cv o) (m_queue o) v (m_mutexFunc o)
    (m_pFunc o) (m_bExit o).
Definition set_m_mutexFunc (v : Mutex) o : Obj :=
  mkQueueThread (m_pThread o) (m_cv o) (m_queue o) (m_mutexThread o) v
    (m_pFunc o) (m_bExit o).
Definition set_m_pFunc (v : option (Callback T Env)) o : Obj :=
  mkQueueThread (m_pThread o) (m_cv o) (m_queue o) (m_mutexThread o)
    (m_mutexFunc o) v (m_bExit o).
Definition set_m_bExit (v : bool) o : Obj :=
  mkQueueThread (m_pThread o) (m_cv o) (m_queue o) (m_mutexThread o)
    (m_mutexFunc o) (m_pFunc o) v.

Definition set_obj (v : Obj) s : Sys :=
  mkSystem v (wpc s) (wqueue s) (opc s) (env s) (enqueued s) (log s).
Definition set_wpc (v : WorkerPc T) s : Sys :=
  mkSystem (obj s) v (wqueue s) (opc s) (env s) (enqueued s) (log s).
Definition set_wqueue (v : Q) s : Sys :=
  mkSystem (obj s) (wpc s) v (opc s) (env s) (enqueued s) (log s).
Definition set_opc (v : OwnerPc) s : Sys :=
  mkSystem (obj s) (wpc s) (wqueue s) v (env s) (enqueued s) (log s).
Definition set_env (v : Env) s : Sys :=
  mkSystem (obj s) (wpc s) (wqueue s) (opc s) v (enqueued s) (log s).
Definition set_enqueued (v : list T) s : Sys :=
  mkSystem (obj s) (wpc s) (wqueue s) (opc s) (env s) v (log s).
Definition set_log (v : list (T * Outcome T Env)) s : Sys :=
  mkSystem (obj s) (wpc s) (wqueue s) (opc s) (env s) (enqueued s) v.

(** Apply an update of the object inside the system. *)
Definition on_obj (f : Obj → Obj) s : Sys := set_obj (f (obj s)) s.

End updates.

Section initial.
Context {T Env Q : Type} `{!FifoQueue T Q}.

(** The constructor (lines 38-42): [m_bExit] is false, every other member
    is default-constructed. *)
Definition QueueThread_new : QueueThread T Env Q :=
  mkQueueThread None CondVar.empty q_new StdMutex.free StdMutex.free None false.

(** The system after construction: no worker, the owner between calls,
    nothing enqueued or handled yet. *)
Definition init (e : Env) : System T Env Q :=
  mkSystem QueueThread_new WNotStarted q_new OIdle e [] [].

End initial.
