(* ===== verification/Api.v ===== *)
(** * The operations of the class that clients call

    [RegisterQueueProcessFunc] (lines 50-55), [Start] (lines 57-70),
    [AddQueueData] (lines 97-103), [IsRunning] (lines 105-112), and [Stop]
    (lines 79-95) cut at the points where another thread may run: the
    critical section that sets [m_bExit] ([Stop_request]), the
    notification ([Stop_notify]) and the join ([Stop_join]).  Each function
    acts on the object alone; [System] schedules them.  A function returns
    [None] where the call would block. *)

From S2P Require Import Prelude StdQueue Sync State.

(** What a call of [Start] gives its caller: a return value, or the
    exception that [std::make_unique] threw. *)
Inductive StartResult := StartRet (b : bool) | StartThrow (e : Exn).

#[export] Instance StartResult_eq_dec : EqDecision StartResult.
Proof. solve_decision. Defined.

Section api.
Context {T Env Q : Type} `{!FifoQueue T Q}.
#[local] Abbreviation Obj := (QueueThread T Env Q).
Implicit Types (o : Obj) (t : Tid).

(** Lines 50-55: under [m_mutexFunc], replace the callback. *)
Definition RegisterQueueProcessFunc t (func : Callback T Env) o : option Obj :=
  m ← StdMutex.lock_guard t (m_mutexFunc o);
  Some (o |> set_m_pFunc (Some func) |> set_m_mutexFunc m).

(** Lines 57-70.  A thread handle that is already there makes [Start]
    return true at once; otherwise a thread is created. *)
Definition Start (spawn_ok : bool) o : StartResult * Obj :=
  match m_pThread o with
  | Some _ => (StartRet true, o)
  | None =>
      match StdThread.make_unique spawn_ok with
      | inl e => (StartThrow e, o)
      | inr p =>
          let o' := set_m_pThread p o in
          match p with
          | None => (StartRet false, o')
          | Some _ => (StartRet true, o')
          end
      end
  end.

(** Lines 97-103: under [m_mutexThread], append the item and wake the
    waiting threads. *)
Definition AddQueueData t (data : T) o : option Obj :=
  m ← StdMutex.lock_guard t (m_mutexThread o);
  Some (o |> set_m_queue (q_push data (m_queue o))
          |> set_m_cv (CondVar.notify_all (m_cv o))
          |> set_m_mutexThread m).

(** Lines 105-112. *)
Definition IsRunning o : bool :=
  match m_pThread o with
  | Some _ => true
  | None => false
  end.

(** Line 82: [Stop] returns at once when there is no thread handle. *)
Definition Stop_returns_early o : bool :=
  match m_pThread o with
  | None => true
  | Some _ => false
  end.

(** Lines 85-88: under [m_mutexThread], set [m_bExit]. *)
Definition Stop_request t o : option Obj :=
  m ← StdMutex.lock_guard t (m_mutexThread o);
  Some (o |> set_m_bExit true |> set_m_mutexThread m).

(** Line 90. *)
Definition Stop_notify o : Obj :=
  set_m_cv (CondVar.notify_all (m_cv o)) o.

(** Lines 91-94: join the thread if it is joinable.  [finished] says
    whether the thread function has returned; until then [join] blocks.
    The result is the object, or the exception that [join] threw. *)
Definition Stop_join (finished : bool) o : option (Exn + Obj) :=
  match m_pThread o with
  | None => None
  | Some th =>
      if joinable th
      then
        r ← StdThread.join finished th;
        match r with
        | inl e => Some (inl e)
        | inr th' => Some (inr (set_m_pThread (Some th') o))
        end
      else Some (inr o)
  end.

(** The end of the destructor (lines 44-48, after [Stop] has returned): the
    members are destroyed, and destroying a joinable [std::thread] calls
    [std::terminate].  [true] when the destruction is clean. *)
Definition destroy_clean o : bool :=
  match m_pThread o with
  | Some th => negb (joinable th)
  | None => true
  end.

(** ** What each operation does, on every branch *)

Lemma RegisterQueueProcessFunc_Some t func o o' :
  RegisterQueueProcessFunc t func o = Some o' ↔
  m_mutexFunc o = None ∧ o' = set_m_pFunc (Some func) o.
Proof.
  unfold RegisterQueueProcessFunc. rewrite lock_guard_bind.
  destruct o; simpl; naive_solver.
Qed.

Lemma AddQueueData_Some t data o o' :
  AddQueueData t data o = Some o' ↔
  m_mutexThread o = None ∧
  o' = (o |> set_m_queue (q_push data (m_queue o)) |> Stop_notify).
Proof.
  unfold AddQueueData, Stop_notify. rewrite lock_guard_bind.
  destruct o; simpl; naive_solver.
Qed.

Lemma Stop_request_Some t o o' :
  Stop_request t o = Some o' ↔
  m_mutexThread o = None ∧ o' = set_m_bExit true o.
Proof.
  unfold Stop_request. rewrite lock_guard_bind.
  destruct o; simpl; naive_solver.
Qed.

(** The guard of line 91 keeps [join] from throwing: [Stop] never calls it
    on a thread that is not joinable. *)
Lemma Stop_join_never_throws finished o e :
  Stop_join finished o ≠ Some (inl e).
Proof.
  unfold Stop_join, StdThread.join.
  by destruct (m_pThread o) as [[[]]|], finished.
Qed.

(** The value [Start] returns, and the handle it leaves. *)
Lemma Start_spec spawn_ok o :
  Start spawn_ok o =
    if IsRunning o then (StartRet true, o)
    else if spawn_ok then (StartRet true, set_m_pThread (Some (mkThread true)) o)
    else (StartThrow system_error, o).
Proof. unfold Start, IsRunning. by destruct (m_pThread o), spawn_ok. Qed.

End api.
