(* ===== verification/Worker.v ===== *)
(** * The worker thread

    [QueueProcessThread] (lines 114-139) and [ProcessQueueData]
    (lines 141-157) as a small-step machine: [worker_step] takes the worker
    from one control point ([WorkerPc]) to the next, and is [None] where the
    thread is blocked (on a mutex, in [wait], or in a call of the callback
    that does not return) or is over.

    [exit_ref] is the queue that the name [queue] of line 128 stands for. *)

From S2P Require Import Prelude StdQueue Sync State.

Section worker.
Context {T Env Q : Type} `{!FifoQueue T Q}.
Context (exit_ref : QRef).
#[local] Abbreviation Obj := (QueueThread T Env Q).
#[local] Abbreviation Sys := (System T Env Q).
Implicit Types (o : Obj) (s : Sys).

(** The predicate of [wait] (line 123). *)
Definition wait_pred o : bool := negb (q_empty (m_queue o)) || m_bExit o.

(** The queue [ProcessQueueData] is given at each of its two call sites. *)
Definition ref_of (r : Ret) : QRef :=
  match r with
  | RetLoop => QLocal
  | RetExit => exit_ref
  end.

Definition get_queue (qr : QRef) s : Q :=
  match qr with
  | QLocal => wqueue s
  | QShared => m_queue (obj s)
  end.

Definition put_queue (qr : QRef) (q : Q) s : Sys :=
  match qr with
  | QLocal => set_wqueue q s
  | QShared => on_obj (set_m_queue q) s
  end.

(** The items a queue still holds when it is destroyed are discarded. *)
Definition discard (q : Q) : list (T * Outcome T Env) :=
  (λ x, (x, Dropped)) <$> items q.

(** [ProcessQueueData] returns.  At line 137 the loop body ends: the local
    [queue] is destroyed and control goes back to the loop test.  At line
    128 control goes on to [lock.unlock()]. *)
Definition proc_return (r : Ret) s : Sys :=
  match r with
  | RetLoop =>
      s |> set_log (log s ++ discard (wqueue s))
        |> set_wqueue q_new
        |> set_wpc WLoopHead
  | RetExit => set_wpc WExitUnlock s
  end.

(** An exception leaves the thread function: nothing in
    [QueueProcessThread] or [ProcessQueueData] catches it, so [std::thread]
    calls [std::terminate] and the process ends, with the mutexes as they
    are. *)
Definition terminate (r : Ret) s : Sys :=
  s |> set_wpc (WTerminate r) |> set_opc OTerminated.

(** One step of [ProcessQueueData] (lines 141-157). *)
Definition proc_step (r : Ret) (p : ProcPc T) s : option Sys :=
  match p with
  | PCheck =>
      match m_pFunc (obj s) with
      | None => Some (proc_return r s)
      | Some _ => Some (set_wpc (WProc r PLoop) s)
      end
  | PLoop =>
      let q := get_queue (ref_of r) s in
      if q_empty q then Some (proc_return r s)
      else
        data ← q_front q;
        q' ← q_pop q;
        Some (s |> put_queue (ref_of r) q' |> set_wpc (WProc r (PLockFunc data)))
  | PLockFunc data =>
      m ← StdMutex.lock TWorker (m_mutexFunc (obj s));
      Some (s |> on_obj (set_m_mutexFunc m) |> set_wpc (WProc r (PInvoke data)))
  | PInvoke data =>
      f ← m_pFunc (obj s);
      let called :=
        s |> set_env (f data (env s))
          |> set_log (log s ++ [(data, Delivered f)]) in
      match cb_ends f data (env s) with
      | Returns =>
          m ← StdMutex.unlock TWorker (m_mutexFunc (obj s));
          Some (called |> on_obj (set_m_mutexFunc m)
                       |> set_wpc (WProc r PLoop))
      | Throws => Some (terminate r called)
      | Hangs => None
      end
  end.

(** One step of [QueueProcessThread] (lines 114-139). *)
Definition worker_step s : option Sys :=
  let o := obj s in
  match wpc s with
  | WNotStarted => None
  | WLoopHead =>
      if m_bExit o then Some (set_wpc WDone s) else Some (set_wpc WLock s)
  | WLock =>
      m ← StdMutex.lock TWorker (m_mutexThread o);
      Some (s |> on_obj (set_m_mutexThread m) |> set_wpc WWaitCheck)
  | WWaitCheck =>
      if wait_pred o then Some (set_wpc WAfterWait s)
      else
        m ← StdMutex.unlock TWorker (m_mutexThread o);
        Some (s |> on_obj (set_m_mutexThread m)
                |> on_obj (λ o, set_m_cv (CondVar.wait TWorker (m_cv o)) o)
                |> set_wpc WBlocked)
  | WBlocked =>
      if CondVar.blocked TWorker (m_cv o) then None
      else
        m ← StdMutex.lock TWorker (m_mutexThread o);
        Some (s |> on_obj (set_m_mutexThread m) |> set_wpc WWaitCheck)
  | WAfterWait =>
      if m_bExit o then Some (set_wpc (WProc RetExit PCheck) s)
      else
        let swapped := StdQueue.swap q_new (m_queue o) in
        m ← StdMutex.unlock TWorker (m_mutexThread o);
        Some (s |> set_wqueue swapped.1
                |> on_obj (set_m_queue swapped.2)
                |> on_obj (set_m_mutexThread m)
                |> set_wpc (WProc RetLoop PCheck))
  | WProc r p => proc_step r p s
  | WExitUnlock =>
      m ← StdMutex.unlock TWorker (m_mutexThread o);
      Some (s |> on_obj (set_m_mutexThread m) |> set_wpc WDone)
  | WDone | WTerminate _ => None
  end.

(** A spurious wakeup: the worker leaves the set of blocked threads without
    a notification. *)
Definition spurious_wakeup s : option Sys :=
  match wpc s with
  | WBlocked =>
      if CondVar.blocked TWorker (m_cv (obj s))
      then Some (on_obj (λ o, set_m_cv (CondVar.wake TWorker (m_cv o)) o) s)
      else None
  | _ => None
  end.

(** ** The worker as a transition relation

    The same steps, one rule for each branch of the code.  [worker_step]
    computes what [WorkerStep] relates ([worker_step_iff]). *)
Inductive WorkerStep : Sys → Sys → Prop :=
| WS_loop_enter s :            (* line 118, !m_bExit holds *)
    wpc s = WLoopHead → m_bExit (obj s) = false →
    WorkerStep s (set_wpc WLock s)
| WS_loop_leave s :            (* line 118, !m_bExit fails: the loop ends *)
    wpc s = WLoopHead → m_bExit (obj s) = true →
    WorkerStep s (set_wpc WDone s)
| WS_lock s :                  (* line 120 *)
    wpc s = WLock → m_mutexThread (obj s) = None →
    WorkerStep s
      (s |> on_obj (set_m_mutexThread (Some TWorker)) |> set_wpc WWaitCheck)
| WS_wait_pass s :             (* lines 121-124, predicate true *)
    wpc s = WWaitCheck → wait_pred (obj s) = true →
    WorkerStep s (set_wpc WAfterWait s)
| WS_wait_block s :            (* lines 121-124, predicate false *)
    wpc s = WWaitCheck → wait_pred (obj s) = false →
    m_mutexThread (obj s) = Some TWorker →
    WorkerStep s
      (s |> on_obj (set_m_mutexThread None)
         |> on_obj (λ o, set_m_cv (CondVar.wait TWorker (m_cv o)) o)
         |> set_wpc WBlocked)
| WS_wake s :                  (* inside wait: notified, takes the mutex again *)
    wpc s = WBlocked → CondVar.blocked TWorker (m_cv (obj s)) = false →
    m_mutexThread (obj s) = None →
    WorkerStep s
      (s |> on_obj (set_m_mutexThread (Some TWorker)) |> set_wpc WWaitCheck)
| WS_exit s :                  (* lines 126-128 *)
    wpc s = WAfterWait → m_bExit (obj s) = true →
    WorkerStep s (set_wpc (WProc RetExit PCheck) s)
| WS_swap s :                  (* lines 126, 133-135 *)
    wpc s = WAfterWait → m_bExit (obj s) = false →
    m_mutexThread (obj s) = Some TWorker →
    WorkerStep s
      (s |> set_wqueue (StdQueue.swap q_new (m_queue (obj s))).1
         |> on_obj (set_m_queue (StdQueue.swap q_new (m_queue (obj s))).2)
         |> on_obj (set_m_mutexThread None)
         |> set_wpc (WProc RetLoop PCheck))
| WS_check_null s r :          (* lines 144-147 *)
    wpc s = WProc r PCheck → m_pFunc (obj s) = None →
    WorkerStep s (proc_return r s)
| WS_check_set s r f :         (* line 144, a callback is registered *)
    wpc s = WProc r PCheck → m_pFunc (obj s) = Some f →
    WorkerStep s (set_wpc (WProc r PLoop) s)
| WS_drained s r :             (* line 149, the queue is empty *)
    wpc s = WProc r PLoop → q_empty (get_queue (ref_of r) s) = true →
    WorkerStep s (proc_return r s)
| WS_pop s r data q' :         (* lines 149-152 *)
    wpc s = WProc r PLoop → q_empty (get_queue (ref_of r) s) = false →
    q_front (get_queue (ref_of r) s) = Some data →
    q_pop (get_queue (ref_of r) s) = Some q' →
    WorkerStep s
      (s |> put_queue (ref_of r) q' |> set_wpc (WProc r (PLockFunc data)))
| WS_lock_func s r data :      (* line 154 *)
    wpc s = WProc r (PLockFunc data) → m_mutexFunc (obj s) = None →
    WorkerStep s
      (s |> on_obj (set_m_mutexFunc (Some TWorker))
         |> set_wpc (WProc r (PInvoke data)))
| WS_invoke s r data f :       (* lines 155-156, the call returns *)
    wpc s = WProc r (PInvoke data) → m_pFunc (obj s) = Some f →
    cb_ends f data (env s) = Returns →
    m_mutexFunc (obj s) = Some TWorker →
    WorkerStep s
      (s |> set_env (f data (env s))
         |> set_log (log s ++ [(data, Delivered f)])
         |> on_obj (set_m_mutexFunc None)
         |> set_wpc (WProc r PLoop))
| WS_throw s r data f :        (* line 155, the call throws *)
    wpc s = WProc r (PInvoke data) → m_pFunc (obj s) = Some f →
    cb_ends f data (env s) = Throws →
    WorkerStep s
      (s |> set_env (f data (env s))
         |> set_log (log s ++ [(data, Delivered f)])
         |> terminate r)
| WS_exit_unlock s :           (* lines 129-130 *)
    wpc s = WExitUnlock → m_mutexThread (obj s) = Some TWorker →
    WorkerStep s (s |> on_obj (set_m_mutexThread None) |> set_wpc WDone).

Lemma worker_step_sound s s' : worker_step s = Some s' → WorkerStep s s'.
Proof.
  unfold worker_step, proc_step. intros Hs.
  destruct (wpc s) as [| | | | | |r [| |x|x]| | |] eqn:Hpc; split_cases;
    repeat match goal with
      | H : StdMutex.lock _ _ = Some _ |- _ => apply lock_Some in H as [? ->]
      | H : StdMutex.unlock _ _ = Some _ |- _ => apply unlock_Some in H as [? ->]
      end;
    by econstructor; eauto.
Qed.

Lemma worker_step_complete s s' : WorkerStep s s' → worker_step s = Some s'.
Proof.
  unfold worker_step, proc_step, StdMutex.lock, StdMutex.unlock.
  destruct 1; by split_cases.
Qed.

(** The step function of the worker and its transition relation agree:
    [worker_step] returns a state exactly when a rule of [WorkerStep] gives
    it, and is [None] exactly when no rule applies. *)
Lemma worker_step_iff s s' : worker_step s = Some s' ↔ WorkerStep s s'.
Proof. split; [apply worker_step_sound|apply worker_step_complete]. Qed.

End worker.
