(* ===== verification/System.v ===== *)
(** * The threads put together

    An [Event] names the thread that moves and, for a client, the operation
    it calls.  [step] is the transition function of the whole system: the
    client operations of [Api] run as atomic steps, [Stop] and [Start(func)]
    run in several steps of the owner, and the worker moves by
    [worker_step].  [run] executes a schedule (a list of events), and
    [reachable] is what some schedule leads to from a fresh object. *)

From S2P Require Import Prelude StdQueue Sync State Api Worker.

Inductive Event (T Env : Type) :=
| EvRegister (t : Tid) (f : Callback T Env)   (* RegisterQueueProcessFunc(f) by t *)
| EvAdd (t : Tid) (x : T)                     (* AddQueueData(x) by t *)
| EvStart (spawn_ok : bool)                   (* the owner runs Start() *)
| EvStartWith (f : Callback T Env)            (* the owner enters Start(f) *)
| EvStop                                      (* the owner enters Stop() *)
| EvDestroy                                   (* the owner enters the destructor *)
| EvOwner                                     (* the owner goes on inside Stop() *)
| EvWorker                                    (* the worker takes its next step *)
| EvSpurious.                                 (* the worker wakes without a notification *)

Arguments EvRegister {T Env} t f.
Arguments EvAdd {T Env} t x.
Arguments EvStart {T Env} spawn_ok.
Arguments EvStartWith {T Env} f.
Arguments EvStop {T Env}.
Arguments EvDestroy {T Env}.
Arguments EvOwner {T Env}.
Arguments EvWorker {T Env}.
Arguments EvSpurious {T Env}.

Section system.
Context {T Env Q : Type} `{!FifoQueue T Q}.
Context (exit_ref : QRef).
#[local] Abbreviation Obj := (QueueThread T Env Q).
#[local] Abbreviation Sys := (System T Env Q).
Implicit Types (o : Obj) (s : Sys) (t : Tid).

(** The object exists: its destructor has not run. *)
Definition alive s : bool :=
  match opc s with
  | ODestroyed | OTerminated => false
  | _ => true
  end.

(** Thread [t] is free to call an operation: the owner when it is between
    two calls, a producer while the object exists.  The worker thread calls
    nothing but the callback. *)
Definition may_call t s : bool :=
  match t with
  | TOwner => bool_decide (opc s = OIdle)
  | TProducer _ => alive s
  | TWorker => false
  end.

Definition is_done (pc : WorkerPc T) : bool :=
  match pc with
  | WDone => true
  | _ => false
  end.

(** The owner runs [Start()] (lines 57-70).  A handle that appears means
    that a thread now runs [QueueProcessThread] from its first line. *)
Definition start_step (spawn_ok : bool) s : Sys :=
  let '(_, o) := Start spawn_ok (obj s) in
  let s' := s |> set_obj o |> set_opc OIdle in
  match m_pThread (obj s), m_pThread o with
  | None, Some _ => set_wpc WLoopHead s'
  | _, _ => s'
  end.

(** [Stop] returns, to the owner or into the rest of the destructor. *)
Definition stop_return (k : Cont) s : Sys :=
  match k with
  | KReturn => set_opc OIdle s
  | KDestroy =>
      set_opc (if destroy_clean (obj s) then ODestroyed else OTerminated) s
  end.

(** The owner enters [Stop] (lines 79-88). *)
Definition stop_begin (k : Cont) s : option Sys :=
  if Stop_returns_early (obj s) then Some (stop_return k s)
  else
    o ← Stop_request TOwner (obj s);
    Some (s |> set_obj o |> set_opc (OStopNotify k)).

(** An exception leaves [Stop]: the caller gets it, and the destructor,
    which must not throw, calls [std::terminate]. *)
Definition stop_throw (k : Cont) s : Sys :=
  match k with
  | KReturn => set_opc OIdle s
  | KDestroy => set_opc OTerminated s
  end.

(** The owner goes on inside [Stop] (lines 90-95). *)
Definition owner_step s : option Sys :=
  match opc s with
  | OStopNotify k =>
      Some (s |> on_obj Stop_notify |> set_opc (OStopJoin k))
  | OStopJoin k =>
      r ← Stop_join (is_done (wpc s)) (obj s);
      match r with
      | inl _ => Some (stop_throw k s)
      | inr o => Some (s |> set_obj o |> stop_return k)
      end
  | _ => None
  end.

Definition step (e : Event T Env) s : option Sys :=
  match e with
  | EvRegister t f =>
      if may_call t s then
        o ← RegisterQueueProcessFunc t f (obj s); Some (set_obj o s)
      else None
  | EvAdd t x =>
      if may_call t s then
        o ← AddQueueData t x (obj s);
        Some (s |> set_obj o |> set_enqueued (enqueued s ++ [x]))
      else None
  | EvStart spawn_ok =>
      match opc s with
      | OIdle | OStartSpawn => Some (start_step spawn_ok s)
      | _ => None
      end
  | EvStartWith f =>
      if may_call TOwner s then
        o ← RegisterQueueProcessFunc TOwner f (obj s);
        Some (s |> set_obj o |> set_opc OStartSpawn)
      else None
  | EvStop => if may_call TOwner s then stop_begin KReturn s else None
  | EvDestroy => if may_call TOwner s then stop_begin KDestroy s else None
  | EvOwner => owner_step s
  | EvWorker => if alive s then worker_step exit_ref s else None
  | EvSpurious => if alive s then spurious_wakeup s else None
  end.

(** Run a schedule. *)
Fixpoint run (evs : list (Event T Env)) s : option Sys :=
  match evs with
  | [] => Some s
  | e :: evs => s' ← step e s; run evs s'
  end.

(** The event by which the owner enters [Stop]: directly, or through the
    destructor. *)
Definition stop_event (k : Cont) : Event T Env :=
  match k with
  | KReturn => EvStop
  | KDestroy => EvDestroy
  end.

Definition owner_at_start s : Prop := opc s = OIdle ∨ opc s = OStartSpawn.

(** ** The system as a labelled transition relation

    One rule for each branch of each operation; [step] computes what
    [Step] relates ([step_iff]). *)
Inductive Step : Sys → Event T Env → Sys → Prop :=
| Step_register s t f :        (* lines 50-55 *)
    may_call t s = true → m_mutexFunc (obj s) = None →
    Step s (EvRegister t f) (on_obj (set_m_pFunc (Some f)) s)
| Step_add s t x :             (* lines 97-103 *)
    may_call t s = true → m_mutexThread (obj s) = None →
    Step s (EvAdd t x)
      (s |> on_obj (set_m_queue (q_push x (m_queue (obj s))))
         |> on_obj Stop_notify
         |> set_enqueued (enqueued s ++ [x]))
| Step_start_again s ok th :   (* lines 60-61 *)
    owner_at_start s → m_pThread (obj s) = Some th →
    Step s (EvStart ok) (set_opc OIdle s)
| Step_start_spawn s :         (* lines 63 and 69 *)
    owner_at_start s → m_pThread (obj s) = None →
    Step s (EvStart true)
      (s |> on_obj (set_m_pThread (Some (mkThread true)))
         |> set_opc OIdle
         |> set_wpc WLoopHead)
| Step_start_throw s :         (* line 63 throws *)
    owner_at_start s → m_pThread (obj s) = None →
    Step s (EvStart false) (set_opc OIdle s)
| Step_start_with s f :        (* line 75 *)
    opc s = OIdle → m_mutexFunc (obj s) = None →
    Step s (EvStartWith f)
      (s |> on_obj (set_m_pFunc (Some f)) |> set_opc OStartSpawn)
| Step_stop_early s k :        (* lines 82-83 *)
    opc s = OIdle → m_pThread (obj s) = None →
    Step s (stop_event k) (stop_return k s)
| Step_stop_request s k th :   (* lines 82, 85-88 *)
    opc s = OIdle → m_pThread (obj s) = Some th →
    m_mutexThread (obj s) = None →
    Step s (stop_event k)
      (s |> on_obj (set_m_bExit true) |> set_opc (OStopNotify k))
| Step_stop_notify s k :       (* line 90 *)
    opc s = OStopNotify k →
    Step s EvOwner (s |> on_obj Stop_notify |> set_opc (OStopJoin k))
| Step_stop_join s k th :      (* lines 91-94, the thread is joinable *)
    opc s = OStopJoin k → m_pThread (obj s) = Some th →
    joinable th = true → wpc s = WDone →
    Step s EvOwner
      (s |> on_obj (set_m_pThread (Some (mkThread false))) |> stop_return k)
| Step_stop_joined s k th :    (* line 91, the thread was joined before *)
    opc s = OStopJoin k → m_pThread (obj s) = Some th →
    joinable th = false →
    Step s EvOwner (stop_return k s)
| Step_worker s s' :
    alive s = true → WorkerStep exit_ref s s' → Step s EvWorker s'
| Step_spurious s :
    alive s = true → wpc s = WBlocked →
    CondVar.blocked TWorker (m_cv (obj s)) = true →
    Step s EvSpurious
      (on_obj (λ o, set_m_cv (CondVar.wake TWorker (m_cv o)) o) s).

(** The states some schedule leads to from a fresh object. *)
Inductive reachable (e0 : Env) : Sys → Prop :=
| reachable_init : reachable e0 (init e0)
| reachable_step s e s' :
    reachable e0 s → Step s e s' → reachable e0 s'.

End system.

Section run_lemmas.
Context {T Env Q : Type} `{!FifoQueue T Q} (exit_ref : QRef).
#[local] Abbreviation Sys := (System T Env Q).
Implicit Types (s : Sys) (evs : list (Event T Env)).

(** Updating a field with the value it has changes nothing. *)
Lemma set_obj_id s : set_obj (obj s) s = s.
Proof. by destruct s. Qed.
Lemma set_m_mutexFunc_id (o : QueueThread T Env Q) :
  set_m_mutexFunc (m_mutexFunc o) o = o.
Proof. by destruct o. Qed.
Lemma set_m_mutexThread_id (o : QueueThread T Env Q) :
  set_m_mutexThread (m_mutexThread o) o = o.
Proof. by destruct o. Qed.

Lemma may_call_owner s : may_call TOwner s = true ↔ opc s = OIdle.
Proof. apply bool_decide_eq_true. Qed.

(** Only an object that exists is called. *)
Lemma may_call_alive t s : may_call t s = true → alive s = true.
Proof.
  unfold alive. destruct t; simpl; [|done..].
  by intros ->%bool_decide_eq_true.
Qed.

Lemma is_done_true (pc : WorkerPc T) : is_done pc = true ↔ pc = WDone.
Proof. by destruct pc. Qed.

#[local] Hint Unfold owner_at_start : core.
#[local] Hint Resolve -> may_call_owner is_done_true : core.
#[local] Hint Resolve <- may_call_owner is_done_true : core.

Ltac unfold_ops :=
  unfold step, start_step, stop_begin, owner_step, spurious_wakeup,
    RegisterQueueProcessFunc, AddQueueData, Stop_request, Stop_join, Start,
    Stop_returns_early, StdThread.make_unique, StdThread.join, owner_at_start
    in *.

Lemma Step_eq s e s1 s2 : Step exit_ref s e s1 → s1 = s2 → Step exit_ref s e s2.
Proof. by intros ? <-. Qed.

(** Find the rule of [Step] that gives a computed state. *)
Ltac by_rule :=
  repeat match goal with
    | H : StdMutex.lock_guard _ _ = Some _ |- _ =>
        apply lock_guard_Some in H as [? ->]
    end;
  eapply Step_eq;
    [econstructor; solve [eauto]
    |repeat match goal with s : System _ _ _ |- _ => destruct s as [[] ?] end;
     simpl in *; by subst].

Lemma stop_begin_sound k s s' :
  opc s = OIdle → stop_begin k s = Some s' →
  Step exit_ref s (stop_event k) s'.
Proof. intros Ho Hs. unfold_ops. split_cases; by_rule. Qed.

Lemma owner_step_sound s s' :
  owner_step s = Some s' → Step exit_ref s EvOwner s'.
Proof. intros Hs. unfold_ops. split_cases; by_rule. Qed.

Lemma step_sound e s s' : step exit_ref e s = Some s' → Step exit_ref s e s'.
Proof.
  intros Hs. destruct e; unfold step in Hs;
    try (by apply owner_step_sound);
    try (destruct (may_call TOwner s) eqn:Hc; [|done];
         apply may_call_owner in Hc;
         by (apply (stop_begin_sound KReturn) || apply (stop_begin_sound KDestroy))).
  all: unfold_ops; split_cases;
    try match goal with
      | H : worker_step _ _ = Some _ |- _ => apply worker_step_sound in H
      end; by_rule.
Qed.

Lemma step_complete e s s' : Step exit_ref s e s' → step exit_ref e s = Some s'.
Proof.
  destruct 1 as [| | | | | |? []|? []| | | |?? Ha Hw|];
    try apply worker_step_complete in Hw; unfold_ops;
    unfold StdMutex.lock_guard, StdMutex.lock, StdMutex.unlock, Stop_notify,
      is_done, may_call in *;
    destruct s as [[] ?]; simpl in *; split_cases; naive_solver.
Qed.

Lemma Step_worker_inv s s' :
  Step exit_ref s EvWorker s' → alive s = true ∧ WorkerStep exit_ref s s'.
Proof.
  intros Hs%step_complete. simpl in Hs. destruct (alive s); [|done].
  split; [done|]. by apply worker_step_sound.
Qed.

(** The transition function and the transition relation agree: [step]
    returns a state exactly when a rule of [Step] gives it, for every
    event and on every branch, blocked calls included. *)
Lemma step_iff e s s' : step exit_ref e s = Some s' ↔ Step exit_ref s e s'.
Proof. split; [apply step_sound|apply step_complete]. Qed.

Lemma run_cons e evs s :
  run exit_ref (e :: evs) s = step exit_ref e s ≫= run exit_ref evs.
Proof. done. Qed.

(** Running a schedule rule by rule. *)
Lemma run_Step e evs s s1 :
  Step exit_ref s e s1 → run exit_ref (e :: evs) s = run exit_ref evs s1.
Proof. intros Hs%step_complete. by rewrite run_cons, Hs. Qed.

Lemma run_app evs1 evs2 s :
  run exit_ref (evs1 ++ evs2) s = run exit_ref evs1 s ≫= run exit_ref evs2.
Proof.
  revert s. induction evs1 as [|e evs1 IH]; intros s; simpl; [done|].
  destruct (step exit_ref e s); simpl; [apply IH|done].
Qed.

Lemma run_snoc evs e s s' :
  run exit_ref evs s = Some s' →
  run exit_ref (evs ++ [e]) s = step exit_ref e s'.
Proof.
  intros Hr. rewrite run_app, Hr. simpl. by destruct (step exit_ref e s').
Qed.

Lemma reachable_run e0 s evs s' :
  reachable exit_ref e0 s → run exit_ref evs s = Some s' →
  reachable exit_ref e0 s'.
Proof.
  revert s. induction evs as [|e evs IH]; intros s Hs Hr; simpl in Hr.
  - by simplify_eq.
  - destruct (step exit_ref e s) as [s1|] eqn:He; [|done].
    eapply IH; [|exact Hr]. eapply reachable_step; [done|]. by apply step_sound.
Qed.

(** A property that every step keeps in the reachable states is kept by
    every schedule. *)
Lemma run_preserves e0 (P : Sys → Prop) :
  (∀ s e s', reachable exit_ref e0 s → P s → Step exit_ref s e s' → P s') →
  ∀ evs s s',
    reachable exit_ref e0 s → P s → run exit_ref evs s = Some s' → P s'.
Proof.
  intros HP evs. induction evs as [|e evs IH]; intros s s' Hr Hs Hrun;
    simpl in Hrun; [by simplify_eq|].
  destruct (step exit_ref e s) as [s1|] eqn:He; [|done].
  apply step_sound in He. apply (IH s1); eauto using reachable_step.
Qed.

(** The reachable states are the states that schedules lead to: a state
    is reachable by the rules of [Step] exactly when [run] gives it for
    some list of events from a fresh object. *)
Lemma reachable_iff_run e0 s :
  reachable exit_ref e0 s ↔ ∃ evs, run exit_ref evs (init e0) = Some s.
Proof.
  split.
  - induction 1 as [|s e s' _ [evs Hr] He]; [by exists []|].
    exists (evs ++ [e]). rewrite (run_snoc _ _ _ _ Hr). by apply step_complete.
  - intros [evs Hr]. eapply reachable_run; [constructor|exact Hr].
Qed.

End run_lemmas.
