(* ===== verification/Invariants.v ===== *)
(** * Invariants of the reachable states

    What holds in every state a schedule can lead to: which thread owns
    each mutex at each control point of the worker ([lock_inv]), how the
    thread handle, [m_bExit] and the control points of the owner and the
    worker go together ([life_inv]), that a worker blocked in [wait] has
    nothing to do, or is about to be notified ([wait_inv]), and that the
    worker's local queue and the callback slot are what its position in
    [ProcessQueueData] needs ([body_inv]).  Each is proved by induction on
    [reachable], with one case for each rule of [Step].  The predicates
    [crashed] and [hung] say that a call of the callback has thrown, or
    does not return. *)

From S2P Require Import Prelude StdQueue Sync State Api Worker System.

(** Case analysis on a step: one goal for each rule of [Step] and, for the
    worker, of [WorkerStep]. *)
Ltac step_cases H :=
  destruct H;
  try match goal with Hw : WorkerStep _ _ _ |- _ => destruct Hw end;
  repeat match goal with
    | r : Ret |- _ => destruct r
    | k : Cont |- _ => destruct k
    | H : owner_at_start _ |- _ => destruct H
    | H : joinable ?th = _ |- _ => destruct th; simpl in H; subst
    end;
  simpl in *;
  try match goal with
    | |- context [put_queue ?x _ _] => is_var x; destruct x
    | H : context [get_queue ?x _] |- _ => is_var x; destruct x
    end;
  simpl in *.

(** Use the equations a rule gives on the control points and the members. *)
Ltac use_eqs :=
  repeat match goal with
    | H : wait_pred _ = _ |- _ => unfold wait_pred in H
    | H : _ || _ = false |- _ => apply orb_false_elim in H as [? ?]
    | H : negb _ = false |- _ => apply negb_false_iff in H
    end;
  repeat match goal with
    | H : wpc _ = _ |- _ => rewrite H in *; clear H
    | H : opc _ = _ |- _ => rewrite H in *; clear H
    | H : m_pThread _ = _ |- _ => rewrite H in *; clear H
    | H : m_bExit _ = _ |- _ => rewrite H in *; clear H
    | H : m_mutexThread _ = _ |- _ => rewrite H in *; clear H
    | H : m_mutexFunc _ = _ |- _ => rewrite H in *; clear H
    | H : m_pFunc _ = _ |- _ => rewrite H in *; clear H
    | H : is_Some None |- _ => by destruct H
    end;
  simpl in *.

(** Case analysis on the control point of the worker. *)
Ltac case_pc s :=
  destruct (wpc s) as [| | | | | |[] []| | |[]]; simpl in *; try done.

Section invariants.
Context {T Env Q : Type} `{!FifoQueue T Q}.
Context (exit_ref : QRef) (e0 : Env).
#[local] Abbreviation Sys := (System T Env Q).
Implicit Types (s : Sys) (pc : WorkerPc T).

(** ** The thread handle, the exit flag and the control points *)

(** The control points of the worker behind a test of [m_bExit] that
    succeeded: the exit path and the end of the thread. *)
Definition exiting pc : bool :=
  match pc with
  | WProc RetExit _ | WExitUnlock | WDone => true
  | _ => false
  end.

(** An exception has left the thread function. *)
Definition crashed pc : bool :=
  match pc with
  | WTerminate _ => true
  | _ => false
  end.

(** The thread function is over: it has returned, or the process has
    been terminated. *)
Definition ended pc : bool :=
  match pc with
  | WDone | WTerminate _ => true
  | _ => false
  end.

(** The worker is inside a call of the callback that does not return. *)
Definition hung s : bool :=
  match wpc s, m_pFunc (obj s) with
  | WProc _ (PInvoke x), Some f => bool_decide (cb_ends f x (env s) = Hangs)
  | _, _ => false
  end.

Definition started pc : bool :=
  match pc with
  | WNotStarted => false
  | _ => true
  end.

(** The owner is inside [Stop], past the critical section. *)
Definition in_stop (o : OwnerPc) : bool :=
  match o with
  | OStopNotify _ | OStopJoin _ => true
  | _ => false
  end.

(** The handle of a thread that has been joined. *)
Definition joined (p : option StdThread) : bool :=
  match p with
  | Some th => negb (joinable th)
  | None => false
  end.

Record life_inv s : Prop := {
  (** There is a thread handle exactly when a thread was created. *)
  li_handle : IsRunning (obj s) = started (wpc s);
  (** Only a finished thread has been joined. *)
  li_joined : joined (m_pThread (obj s)) = true → wpc s = WDone;
  (** The worker is on the exit path only after [m_bExit] was set. *)
  li_exiting : exiting (wpc s) = true → m_bExit (obj s) = true;
  (** [m_bExit] is set only when there is a thread. *)
  li_flag : m_bExit (obj s) = true → IsRunning (obj s) = true;
  (** Inside [Stop], [m_bExit] is set. *)
  li_stop : in_stop (opc s) = true → m_bExit (obj s) = true;
  (** Once [Stop] has set [m_bExit] and returned, the thread was joined. *)
  li_returned :
    m_bExit (obj s) = true → in_stop (opc s) = false →
    crashed (wpc s) = false → joined (m_pThread (obj s)) = true;
  (** The destructor leaves no joinable thread behind. *)
  li_destroyed : opc s = ODestroyed → destroy_clean (obj s) = true;
  (** [std::terminate] is called for one reason only: an exception that
      leaves the callback. *)
  li_terminated : bool_decide (opc s = OTerminated) = crashed (wpc s)
}.

Lemma life_inv_init : life_inv (init e0 : Sys).
Proof. by split. Qed.

Lemma life_inv_step s e s' : life_inv s → Step exit_ref s e s' → life_inv s'.
Proof.
  intros [H1 H2 H3 H4 H5 H6 H7 H8] Hs. unfold IsRunning, destroy_clean in *.
  step_cases Hs.
  all: split; unfold IsRunning, destroy_clean; simpl; use_eqs.
  all: intuition (congruence || eauto).
Qed.

(** The callback in the slot, if there is one, returns from every call. *)
Definition safe_slot s : Prop :=
  ∀ f, m_pFunc (obj s) = Some f → always_returns f.

Lemma safe_not_hung s : safe_slot s → hung s = false.
Proof.
  unfold hung. intros Hs. destruct (wpc s) as [| | | | | |r []| | |]; try done.
  destruct (m_pFunc (obj s)) as [f|] eqn:Hf; [|done].
  apply bool_decide_eq_false. by rewrite (Hs f Hf).
Qed.

(** As long as the process runs, no exception has left the callback. *)
Lemma alive_not_crashed s : life_inv s → alive s = true → crashed (wpc s) = false.
Proof.
  intros [_ _ _ _ _ _ _ Ht] Ha. rewrite <- Ht. apply bool_decide_eq_false.
  intros Ho. unfold alive in Ha. by rewrite Ho in Ha.
Qed.

(** Once [m_bExit] is set and the owner is out of [Stop], the thread
    function has returned. *)
Lemma returned_done s :
  life_inv s → m_bExit (obj s) = true → in_stop (opc s) = false →
  opc s ≠ OTerminated → wpc s = WDone.
Proof.
  intros [_ Hj _ _ _ Hr _ Ht] Hx Ho Ha. apply Hj, Hr; [done..|].
  rewrite <- Ht. by apply bool_decide_eq_false.
Qed.

(** When an exception has left the callback, the process is over: no
    thread takes a step any more. *)
Lemma crashed_no_step s e s' :
  life_inv s → crashed (wpc s) = true → ¬ Step exit_ref s e s'.
Proof.
  intros [_ _ _ _ _ _ _ Ht] Hc Hs. rewrite Hc in Ht.
  apply bool_decide_eq_true in Ht.
  assert (alive s = false) as Ha by (unfold alive; by rewrite Ht).
  assert (∀ t, may_call t s = false) as Hm.
  { intros []; simpl; [apply bool_decide_eq_false; congruence|done..]. }
  destruct Hs;
    repeat match goal with
      | H : may_call _ _ = true |- _ => by rewrite Hm in H
      | H : owner_at_start _ |- _ => destruct H
      end; congruence.
Qed.

(** A step is taken only while the process runs. *)
Lemma step_not_crashed s e s' :
  life_inv s → Step exit_ref s e s' → crashed (wpc s) = false.
Proof.
  intros Hi Hs. destruct (crashed (wpc s)) eqn:Hc; [|done].
  by destruct (crashed_no_step s e s' Hi Hc Hs).
Qed.

(** [m_bExit] is never reset. *)
Lemma exit_flag_sticky s e s' :
  Step exit_ref s e s' → m_bExit (obj s) = true → m_bExit (obj s') = true.
Proof. intros Hs Hx. step_cases Hs; done. Qed.

(** ** Which thread owns which mutex *)

(** The owner of [m_mutexThread] at each control point of the worker: the
    worker holds it from [lock.lock()] (line 120) to [wait] or to
    [lock.unlock()] (lines 129 and 135), and through the whole of
    [ProcessQueueData] on the exit path. *)
Definition thread_mutex_at pc : Mutex :=
  match pc with
  | WWaitCheck | WAfterWait | WProc RetExit _ | WExitUnlock
  | WTerminate RetExit => Some TWorker
  | _ => None
  end.

(** The owner of [m_mutexFunc]: the worker, around the call of line 155. *)
Definition func_mutex_at pc : Mutex :=
  match pc with
  | WProc _ (PInvoke _) | WTerminate _ => Some TWorker
  | _ => None
  end.

Record lock_inv s : Prop := {
  lk_thread : m_mutexThread (obj s) = thread_mutex_at (wpc s);
  lk_func : m_mutexFunc (obj s) = func_mutex_at (wpc s)
}.

Lemma lock_inv_init : lock_inv (init e0 : Sys).
Proof. by split. Qed.

Lemma lock_inv_step s e s' :
  life_inv s → lock_inv s → Step exit_ref s e s' → lock_inv s'.
Proof.
  intros [H1 _ _ _ _ _ _ _] [Ht Hf] Hs. unfold IsRunning in *.
  step_cases Hs; split; simpl; use_eqs; try congruence.
  all: by destruct (wpc s).
Qed.

(** ** The condition variable *)

(** The owner stands between setting [m_bExit] and [notify_all]. *)
Definition notifying (o : OwnerPc) : bool :=
  match o with
  | OStopNotify _ => true
  | _ => false
  end.

Record wait_inv s : Prop := {
  (** Only a worker inside [wait] is among the blocked threads. *)
  wi_blocked : CondVar.blocked TWorker (m_cv (obj s)) = true → wpc s = WBlocked;
  (** A blocked worker has no pending item ... *)
  wi_idle :
    CondVar.blocked TWorker (m_cv (obj s)) = true →
    q_empty (m_queue (obj s)) = true;
  (** ... and if it has been asked to stop, the notification is on its way. *)
  wi_notify :
    CondVar.blocked TWorker (m_cv (obj s)) = true →
    m_bExit (obj s) = true → notifying (opc s) = true;
  (** No other thread ever waits on [m_cv]. *)
  wi_alone :
    m_cv (obj s) =
      if CondVar.blocked TWorker (m_cv (obj s)) then [TWorker] else []
}.

Lemma wait_inv_init : wait_inv (init e0 : Sys).
Proof. by split. Qed.

Lemma wait_inv_step s e s' :
  life_inv s → wait_inv s → Step exit_ref s e s' → wait_inv s'.
Proof.
  intros [H1 _ _ _ _ _ _ _] [Hb Hi Hn Ha] Hs. unfold IsRunning, wait_pred in *.
  step_cases Hs; split; unfold Stop_notify; simpl; use_eqs;
    autorewrite with qt; try done; intros.
  all: try solve [intuition (use_eqs; congruence || eauto)].
  all: destruct (CondVar.blocked TWorker (m_cv (obj s))) eqn:Hbl;
    rewrite Ha; try done; by specialize (Hb eq_refl).
Qed.

(** ** The worker's local queue and the callback *)

(** The worker is inside the loop body, where its local [queue] lives. *)
Definition in_body pc : bool :=
  match pc with
  | WProc RetLoop _ | WTerminate RetLoop => true
  | _ => false
  end.

(** The worker is inside [ProcessQueueData], past the test of line 144. *)
Definition past_check pc : bool :=
  match pc with
  | WProc _ (PLoop | PLockFunc _ | PInvoke _) => true
  | _ => false
  end.

Record body_inv s : Prop := {
  (** Outside the loop body the local queue holds nothing. *)
  bi_local : in_body (wpc s) = false → items (wqueue s) = [];
  (** Past line 144 a callback is registered: line 155 never dereferences
      a null pointer. *)
  bi_func : past_check (wpc s) = true → is_Some (m_pFunc (obj s))
}.

Lemma body_inv_init : body_inv (init e0 : Sys).
Proof. split; [intros _; apply items_new|done]. Qed.

Lemma body_inv_step s e s' :
  life_inv s → body_inv s → Step exit_ref s e s' → body_inv s'.
Proof.
  intros [H1 _ _ _ _ _ _ _] [Hl Hf] Hs. unfold IsRunning in *.
  step_cases Hs; split; simpl; use_eqs; autorewrite with qt; try done; eauto.
  all: try (by destruct (wpc s); eauto).
  (* the exit path with [exit_ref = QLocal]: the local queue is empty *)
  all: specialize (Hl eq_refl);
    by match goal with H : q_empty _ = false |- _ => apply q_empty_false in H end.
Qed.

(** ** All of them together *)

Record inv s : Prop := {
  inv_life : life_inv s;
  inv_lock : lock_inv s;
  inv_wait : wait_inv s;
  inv_body : body_inv s
}.

Lemma inv_init : inv (init e0 : Sys).
Proof.
  split; [apply life_inv_init|apply lock_inv_init|apply wait_inv_init
         |apply body_inv_init].
Qed.

Lemma inv_step s e s' : inv s → Step exit_ref s e s' → inv s'.
Proof.
  intros [] Hs.
  split; eauto using life_inv_step, lock_inv_step, wait_inv_step, body_inv_step.
Qed.

Theorem reachable_inv s : reachable exit_ref e0 s → inv s.
Proof. induction 1; eauto using inv_init, inv_step. Qed.

End invariants.
