(* ===== verification/Wellformed.v ===== *)
(** * Well-formed states, as a check that runs

    [well_formed] is the invariant of [Invariants] as a function to [bool]:
    it tests, on a state, that the thread handle, [m_bExit] and the control
    points go together, that each mutex has the owner the control point of
    the worker says, that only a worker with nothing to do is blocked on
    [m_cv], and that the local queue and the callback slot are what the
    worker's position in [ProcessQueueData] needs.  It holds exactly of the
    states that satisfy [inv] ([well_formed_inv]), so the construction gives
    a well-formed object, every operation and every step of the worker keeps
    a state well-formed ([well_formed_step]), and a state that fails the
    test is one no schedule leads to. *)

From S2P Require Import Prelude StdQueue Sync State Api Worker System Invariants.

Section wellformed.
Context {T Env Q : Type} `{!FifoQueue T Q}.
#[local] Abbreviation Sys := (System T Env Q).
Implicit Types (s : Sys) (pc : WorkerPc T).

Definition in_wait pc : bool :=
  match pc with
  | WBlocked => true
  | _ => false
  end.

(** The thread handle, the exit flag and the control points. *)
Definition life_ok s : bool :=
  let o := obj s in
  bool_decide (IsRunning o = started (wpc s))
  && implb (joined (m_pThread o)) (is_done (wpc s))
  && implb (exiting (wpc s)) (m_bExit o)
  && implb (m_bExit o) (IsRunning o)
  && implb (in_stop (opc s)) (m_bExit o)
  && implb (m_bExit o && negb (in_stop (opc s)) && negb (crashed (wpc s)))
       (joined (m_pThread o))
  && implb (bool_decide (opc s = ODestroyed)) (destroy_clean o)
  && bool_decide (bool_decide (opc s = OTerminated) = crashed (wpc s)).

(** The owners of the two mutexes. *)
Definition lock_ok s : bool :=
  bool_decide (m_mutexThread (obj s) = thread_mutex_at (wpc s))
  && bool_decide (m_mutexFunc (obj s) = func_mutex_at (wpc s)).

(** The threads blocked on the condition variable. *)
Definition wait_ok s : bool :=
  let o := obj s in
  let b := CondVar.blocked TWorker (m_cv o) in
  implb b (in_wait (wpc s))
  && implb b (q_empty (m_queue o))
  && implb (b && m_bExit o) (notifying (opc s))
  && bool_decide (m_cv o = if b then [TWorker] else []).

(** The local queue and the callback slot. *)
Definition body_ok s : bool :=
  implb (negb (in_body (wpc s))) (q_empty (wqueue s))
  && implb (past_check (wpc s)) (bool_decide (is_Some (m_pFunc (obj s)))).

Definition well_formed s : bool :=
  life_ok s && lock_ok s && wait_ok s && body_ok s.

Lemma in_wait_true pc : in_wait pc = true ↔ pc = WBlocked.
Proof. by destruct pc. Qed.

(** Turn a boolean test into the proposition it decides. *)
Ltac reflect :=
  rewrite ?andb_true_iff, ?implb_true_iff, ?andb_true_iff, ?negb_true_iff,
    ?bool_decide_eq_true, ?is_done_true, ?in_wait_true, ?q_empty_true.

Lemma life_ok_spec s : life_ok s = true ↔ life_inv s.
Proof.
  unfold life_ok. reflect.
  split; [intros (((((((? & ?) & ?) & ?) & ?) & ?) & ?) & ?)|intros []];
    [split|split_and!]; intuition.
Qed.

Lemma lock_ok_spec s : lock_ok s = true ↔ lock_inv s.
Proof. unfold lock_ok. reflect. split; [by intros []|by intros []]. Qed.

Lemma wait_ok_spec s : wait_ok s = true ↔ wait_inv s.
Proof.
  unfold wait_ok. reflect.
  split; [intros (((? & ?) & ?) & ?)|intros []]; [split|split_and!];
    rewrite ?q_empty_true in *; intuition.
Qed.

Lemma body_ok_spec s : body_ok s = true ↔ body_inv s.
Proof.
  unfold body_ok. reflect.
  split; [intros [? ?]|intros []]; [split|split_and!]; intuition.
Qed.

(** The test decides the invariant. *)
Lemma well_formed_inv s : well_formed s = true ↔ inv s.
Proof.
  unfold well_formed.
  rewrite !andb_true_iff, life_ok_spec, lock_ok_spec, wait_ok_spec, body_ok_spec.
  split; [by intros [[[? ?] ?] ?]|by intros []].
Qed.

#[export] Instance inv_dec s : Decision (inv s).
Proof.
  refine (cast_if (decide (well_formed s = true))); by rewrite <- well_formed_inv.
Defined.

End wellformed.

Section preservation.
Context {T Env Q : Type} `{!FifoQueue T Q}.
Context (exit_ref : QRef) (e0 : Env).
#[local] Abbreviation Sys := (System T Env Q).
Implicit Types (s : Sys) (e : Event T Env) (evs : list (Event T Env)).

(** The constructor gives a well-formed object. *)
Lemma well_formed_init : well_formed (init e0 : Sys) = true.
Proof. apply well_formed_inv, inv_init. Qed.

(** C14. Every operation keeps the state well-formed: whatever event is
    enabled in a state that passes the test [well_formed] (a call of a
    client, a step of the owner inside [Stop], a step of the worker, a
    spurious wakeup), the state it leads to passes the test as well. *)
Theorem well_formed_step e s s' :
  well_formed s = true → step exit_ref e s = Some s' → well_formed s' = true.
Proof.
  rewrite !well_formed_inv. intros Hi Hs%step_sound. by eapply inv_step.
Qed.

(** A state that fails the test is not reachable. *)
Lemma ill_formed_unreachable s :
  well_formed s = false → ¬ reachable exit_ref e0 s.
Proof.
  intros Hw Hr%reachable_inv%well_formed_inv. congruence.
Qed.

End preservation.
