(* ===== verification/Fifo.v ===== *)
(** * What happens to the items

    The ghost fields of [System] record the items enqueued so far and the
    items the worker has handled, in order.  [conserved] says where every
    enqueued item is: handled, in the worker's hands, or still in
    [m_queue], in the order of enqueueing.  First-in-first-out delivery,
    no duplication and no loss before the worker ends follow from it.
    [replayed] says that the state the callbacks act on is the result of
    the recorded calls and of nothing else. *)

From S2P Require Import Prelude StdQueue Sync State Api Worker System Invariants.

Section fifo.
Context {T Env Q : Type} `{!FifoQueue T Q}.
Context (exit_ref : QRef) (e0 : Env).
#[local] Abbreviation Sys := (System T Env Q).
Implicit Types (s : Sys) (pc : WorkerPc T) (lg : list (T * Outcome T Env)).

(** The item the worker has popped and not yet passed on (the local
    [data] of line 151). *)
Definition popped pc : list T :=
  match pc with
  | WProc _ (PLockFunc data | PInvoke data) => [data]
  | _ => []
  end.

(** The items that wait to be handled, oldest first. *)
Definition pending s : list T :=
  popped (wpc s) ++ items (wqueue s) ++ items (m_queue (obj s)).

(** The items the worker is done with, oldest first. *)
Definition handled s : list T := (log s).*1.

(** The items that were passed to a callback, oldest first. *)
Definition delivered lg : list T :=
  omap (λ en, match en.2 with Delivered _ => Some en.1 | Dropped => None end) lg.

Definition conserved s : Prop := enqueued s = handled s ++ pending s.

(** The effect of the recorded calls on the callbacks' state. *)
Definition replay lg (e : Env) : Env :=
  foldl (λ e en, match en.2 with Delivered f => f en.1 e | Dropped => e end) e lg.

Definition replayed s : Prop := env s = replay (log s) e0.

Lemma handled_discard (q : Q) : (discard q : list (T * Outcome T Env)).*1 = items q.
Proof.
  unfold discard. rewrite <- list_fmap_compose. apply list_fmap_id.
Qed.

Lemma delivered_app lg1 lg2 :
  delivered (lg1 ++ lg2) = delivered lg1 ++ delivered lg2.
Proof. apply omap_app. Qed.

Lemma delivered_discard (q : Q) : delivered (discard q) = [].
Proof. unfold discard, delivered. by induction (items q). Qed.

Lemma replay_discard (q : Q) e : replay (discard q) e = e.
Proof. unfold discard, replay. by induction (items q). Qed.

Lemma replay_app lg1 lg2 e : replay (lg1 ++ lg2) e = replay lg2 (replay lg1 e).
Proof. apply foldl_app. Qed.

Lemma conserved_init : conserved (init e0 : Sys).
Proof. unfold conserved, pending, handled. simpl. by rewrite items_new. Qed.

Lemma conserved_step s e s' :
  life_inv s → body_inv s → conserved s → Step exit_ref s e s' → conserved s'.
Proof.
  unfold conserved, pending, handled.
  intros [H1 _ _ _ _ _ _ _] [Hl _] Hc Hs. unfold IsRunning in H1.
  step_cases Hs; use_eqs;
    try match goal with
      | Hf : q_front ?q = Some _, Hp : q_pop ?q = Some _ |- _ =>
          rewrite (q_front_pop q _ _ Hf Hp) in *
      end;
    rewrite ?fmap_app, ?handled_discard, ?Hc; autorewrite with qt;
    rewrite ?Hl by done; simpl; rewrite <- ?app_assoc; try done.
  all: first [by destruct (wpc s)|by specialize (Hl eq_refl)].
Qed.

Lemma replayed_init : replayed (init e0 : Sys).
Proof. done. Qed.

Lemma replayed_step s e s' : replayed s → Step exit_ref s e s' → replayed s'.
Proof.
  unfold replayed. intros Hr Hs.
  step_cases Hs; rewrite ?replay_app, ?replay_discard, <- ?Hr; done.
Qed.

(** Every enqueued item is in exactly one place: handled, in the worker's
    hands, or still in the queue; and the order of enqueueing is kept. *)
Theorem reachable_conserved s : reachable exit_ref e0 s → conserved s.
Proof.
  induction 1 as [|s e s' Hr IH Hs]; [apply conserved_init|].
  apply reachable_inv in Hr as [].
  by eapply conserved_step.
Qed.

(** The callbacks' state is the result of the recorded calls. *)
Theorem reachable_replayed s : reachable exit_ref e0 s → replayed s.
Proof. induction 1; eauto using replayed_init, replayed_step. Qed.

(** C1. First in, first out: the items the worker has handled are the first
    items that were enqueued, in the same order. *)
Theorem handled_prefix s :
  reachable exit_ref e0 s → handled s `prefix_of` enqueued s.
Proof. intros Hc%reachable_conserved. rewrite Hc. by apply prefix_app_r. Qed.

(** A worker blocked in [wait] has nothing in its hands, in its local queue
    or in [m_queue]. *)
Lemma blocked_nothing_pending s :
  reachable exit_ref e0 s → CondVar.blocked TWorker (m_cv (obj s)) = true →
  pending s = [].
Proof.
  intros [_ _ [Hw Hi _ _] [Hl _]]%reachable_inv Hb.
  unfold pending. rewrite (Hw Hb) in *. apply q_empty_true in Hi as ->; [|done].
  by rewrite Hl.
Qed.

(** C6. A worker that sleeps has nothing left to do: whenever the worker
    is blocked in [wait], every item enqueued so far has been handled. *)
Theorem idle_all_handled s :
  reachable exit_ref e0 s → CondVar.blocked TWorker (m_cv (obj s)) = true →
  handled s = enqueued s ∧ pending s = [].
Proof.
  intros Hr Hb. pose proof (reachable_conserved s Hr) as Hc.
  pose proof (blocked_nothing_pending s Hr Hb) as Hp.
  by rewrite Hc, Hp, app_nil_r.
Qed.

(** C37. No item is handled twice: if the enqueued items are pairwise
    different, so are the handled ones. *)
Theorem handled_NoDup s :
  reachable exit_ref e0 s → NoDup (enqueued s) → NoDup (handled s).
Proof.
  intros Hc%reachable_conserved. rewrite Hc. by intros [? _]%NoDup_app.
Qed.

(** The items passed to a callback are among the handled ones, in order. *)
Lemma delivered_sublist lg : delivered lg `sublist_of` lg.*1.
Proof.
  induction lg as [|[x []] lg IH]; simpl; [done|by constructor..].
Qed.

(** C38. The callbacks see the items in the order of enqueueing: the items
    passed to a callback are a subsequence of the enqueued ones. *)
Theorem delivered_in_order s :
  reachable exit_ref e0 s → delivered (log s) `sublist_of` enqueued s.
Proof.
  intros Hc%reachable_conserved. rewrite Hc.
  apply sublist_inserts_r, delivered_sublist.
Qed.

End fifo.
