(* ===== verification/Progress.v ===== *)
(** * Who can move

    The worker never blocks on a mutex and never runs into undefined
    behaviour: in a reachable state it cannot move only because it was
    never started, is over, is blocked in [wait], or is inside a call of
    the callback that does not return ([worker_progress]).  The client operations are enabled exactly when
    the worker does not own the mutex they take ([add_enabled],
    [register_enabled]).  A worker blocked in [wait] stays there until it
    is notified ([idle_worker_sleeps]).  The last section shows the two
    reads of the worker that no mutex orders with the write they depend on
    ([check_races_with_register], [loop_test_races_with_stop]). *)

From S2P Require Import Prelude StdQueue Sync State Api Worker System Invariants.

Section progress.
Context {T Env Q : Type} `{!FifoQueue T Q}.
Context (exit_ref : QRef) (e0 : Env).
#[local] Abbreviation Sys := (System T Env Q).
Implicit Types (s : Sys) (pc : WorkerPc T) (t : Tid).

(** The worker is blocked in [wait], and nobody has notified it. *)
Definition worker_waiting s : Prop :=
  wpc s = WBlocked ∧ CondVar.blocked TWorker (m_cv (obj s)) = true.

(** There is no running worker: none was started, or the thread function
    is over. *)
Definition worker_absent s : Prop :=
  wpc s = WNotStarted ∨ ended (wpc s) = true.

Lemma worker_step_None s :
  lock_inv s → body_inv s →
  worker_step exit_ref s = None →
  worker_absent s ∨ worker_waiting s ∨ hung s = true.
Proof.
  intros [Ht Hf] [_ Hc]. unfold worker_step, proc_step, worker_absent,
    worker_waiting, hung, StdMutex.lock, StdMutex.unlock, StdQueue.swap.
  destruct (wpc s) as [| | | | | |r [| |x|x]| | |] eqn:Hpc; simpl in *;
    rewrite ?Ht, ?Hf; try destruct r; intros Hs; split_cases; eauto.
  all: try by destruct (Hc eq_refl).
  all: match goal with
       | H : q_empty ?q = false |- _ =>
           destruct (q_nonempty_front_pop q H) as (? & ? & ? & ?); congruence
       end.
Qed.

(** The thread function can go on, unless it has not begun, is over, is
    blocked in [wait], or is inside a call that does not return. *)
Lemma worker_can_step s :
  reachable exit_ref e0 s →
  is_Some (worker_step exit_ref s) ∨
  worker_absent s ∨ worker_waiting s ∨ hung s = true.
Proof.
  intros [_ Hl _ Hb]%reachable_inv.
  destruct (worker_step exit_ref s) eqn:Hs; [by left; eauto|right].
  by apply worker_step_None.
Qed.

(** C22. While the object exists, the worker thread can take a step in
    every reachable state, unless no thread was started, the thread
    function has returned, the thread is blocked in [wait] without a
    notification, or it is inside a call of the callback that does not
    return.  It never waits for a mutex, never pops an empty queue and
    never calls through a null callback pointer. *)
Theorem worker_progress s :
  reachable exit_ref e0 s → alive s = true →
  (∃ s', Step exit_ref s EvWorker s') ∨
  worker_absent s ∨ worker_waiting s ∨ hung s = true.
Proof.
  intros Hr Ha. destruct (worker_can_step s Hr) as [[s' Hs]|Hw]; [left|by right].
  exists s'. apply Step_worker; [done|]. by apply worker_step_sound.
Qed.

(** C33. A producer's [AddQueueData] is enabled exactly when the worker does
    not own [m_mutexThread]: the worker makes producers wait during its
    short critical sections, and during the whole exit path, callbacks
    included. *)
Theorem add_enabled s t x :
  reachable exit_ref e0 s →
  is_Some (step exit_ref (EvAdd t x) s) ↔
  may_call t s = true ∧ thread_mutex_at (wpc s) = None.
Proof.
  intros [_ [Ht _] _ _]%reachable_inv. simpl. rewrite <- Ht.
  destruct (may_call t s); [|by split; [intros []|intros []]].
  destruct (AddQueueData t x (obj s)) as [o'|] eqn:E; simpl.
  - apply AddQueueData_Some in E as [? _]. by eauto.
  - split; [by intros []|]. intros [_ Hm].
    by rewrite (proj2 (AddQueueData_Some t x (obj s) _) (conj Hm eq_refl)) in E.
Qed.

(** C34. [RegisterQueueProcessFunc] is enabled exactly when the worker is not
    inside a call of the callback: registration waits for the call in
    progress and for nothing else. *)
Theorem register_enabled s t f :
  reachable exit_ref e0 s →
  is_Some (step exit_ref (EvRegister t f) s) ↔
  may_call t s = true ∧ func_mutex_at (wpc s) = None.
Proof.
  intros [_ [_ Hf] _ _]%reachable_inv. simpl. rewrite <- Hf.
  destruct (may_call t s); [|by split; [intros []|intros []]].
  destruct (RegisterQueueProcessFunc t f (obj s)) as [o'|] eqn:E; simpl.
  - apply RegisterQueueProcessFunc_Some in E as [? _]. by eauto.
  - split; [by intros []|]. intros [_ Hm].
    by rewrite (proj2 (RegisterQueueProcessFunc_Some t f (obj s) _)
                  (conj Hm eq_refl)) in E.
Qed.

(** C32. An idle worker sleeps: blocked in [wait] it takes no step at all
    until a thread notifies it, and a spurious wakeup only makes it test
    the predicate and block again, leaving the whole system as it was. *)
Theorem idle_worker_sleeps s :
  reachable exit_ref e0 s → worker_waiting s → alive s = true →
  m_bExit (obj s) = false →
  step exit_ref EvWorker s = None ∧
  run exit_ref [EvSpurious; EvWorker; EvWorker] s = Some s.
Proof.
  intros [_ [Ht _] [_ Hi _ Ha] _]%reachable_inv [Hpc Hb] Hal Hx.
  specialize (Hi Hb). rewrite Hb in Ha. rewrite Hpc in Ht. simpl in Ht.
  split.
  { simpl. rewrite Hal. unfold worker_step. by rewrite Hpc, Hb. }
  erewrite run_Step by by apply Step_spurious.
  erewrite run_Step.
  2:{ apply Step_worker; [done|]. apply WS_wake; simpl; [done| |done].
      apply blocked_wake. }
  erewrite run_Step.
  2:{ apply Step_worker; [done|]. apply WS_wait_block; simpl; [done| |done].
      unfold wait_pred. simpl. by rewrite Hi, Hx. }
  destruct s as [[th cv q mt mf pf bx] pc wq op en enq lg]; simpl in *.
  by subst.
Qed.

(** ** Reads that no lock orders

    [m_pFunc] is written under [m_mutexFunc] (line 54) and [m_bExit] under
    [m_mutexThread] (line 87), but the worker reads the first at line 144
    and the second at line 118 with neither mutex in its hands: the read
    and the write are enabled in the same state. *)

(** C26. The test of line 144 races with a registration: whenever the
    worker stands at the test, it does not hold [m_mutexFunc], and both its
    read of [m_pFunc] and the write of line 54 by any thread that may call
    are enabled. *)
Theorem check_races_with_register s r t f :
  reachable exit_ref e0 s → wpc s = WProc r PCheck → may_call t s = true →
  m_mutexFunc (obj s) = None ∧
  is_Some (step exit_ref (EvRegister t f) s) ∧
  is_Some (step exit_ref EvWorker s).
Proof.
  intros [_ [_ Hf] _ _]%reachable_inv Hpc Hc. rewrite Hpc in Hf.
  split_and!; [done|..]; simpl.
  - rewrite Hc.
    by rewrite (proj2 (RegisterQueueProcessFunc_Some t f (obj s) _)
                  (conj Hf eq_refl)).
  - rewrite (may_call_alive t s Hc).
    unfold worker_step, proc_step. rewrite Hpc.
    by destruct (m_pFunc (obj s)).
Qed.

(** C27. The loop test of line 118 races with [Stop]: whenever the worker
    stands at the test and the owner is free to call, the worker does not
    hold [m_mutexThread], and both its read of [m_bExit] and the write of
    line 87 are enabled. *)
Theorem loop_test_races_with_stop s :
  reachable exit_ref e0 s → wpc s = WLoopHead → opc s = OIdle →
  m_mutexThread (obj s) = None ∧
  (∃ s', step exit_ref EvStop s = Some s' ∧ m_bExit (obj s') = true) ∧
  is_Some (step exit_ref EvWorker s).
Proof.
  intros [[H1 _ _ _ _ _ _ _] [Ht _] _ _]%reachable_inv Hpc Ho.
  rewrite Hpc in Ht, H1. unfold IsRunning in H1.
  split_and!; [done|..]; simpl.
  - unfold may_call, stop_begin, Stop_returns_early. rewrite Ho.
    destruct (m_pThread (obj s)); [|done]. simpl.
    rewrite (proj2 (Stop_request_Some TOwner (obj s) _) (conj Ht eq_refl)).
    by eexists.
  - unfold alive, worker_step. rewrite Ho, Hpc. by destruct (m_bExit (obj s)).
Qed.

End progress.
