(* ===== verification/Lifecycle.v ===== *)
(** * Starting, stopping and destroying

    What [Start], [Stop], [IsRunning] and the destructor do to the thread
    handle and to the worker, in every reachable state: [Start] never
    returns false, [Stop] returns only after the worker has ended, a second
    [Stop] changes nothing, and the destructor never destroys a joinable
    thread.  The same theorems show what the class does not do: after
    [Stop] the handle stays, so [IsRunning] still answers true, [Start]
    creates no thread, and nothing enqueued later is ever handled.
    [lifecycle_refines] puts this together as the state machine of the
    worker state: NotStarted, Running, StopRequested, Stopped, in this
    order and with no way back. *)

From S2P Require Import Prelude StdQueue Sync State Api Worker System Invariants.
From S2P Require Import Progress.

Section start.
Context {T Env Q : Type} `{!FifoQueue T Q}.
#[local] Abbreviation Obj := (QueueThread T Env Q).
Implicit Types (o : Obj).

(** C35. [Start] never returns false: the test of line 64 cannot succeed,
    because [std::make_unique] returns a thread or throws. *)
Theorem Start_never_false spawn_ok o : (Start spawn_ok o).1 ≠ StartRet false.
Proof.
  rewrite Start_spec. by destruct (IsRunning o), spawn_ok.
Qed.

(** C36. [Start] throws exactly when there is no handle yet and the thread
    cannot be created; the object is then unchanged. *)
Theorem Start_throws spawn_ok o e :
  (Start spawn_ok o).1 = StartThrow e ↔
  IsRunning o = false ∧ spawn_ok = false ∧ e = system_error.
Proof.
  rewrite Start_spec. destruct e, (IsRunning o), spawn_ok; simpl; naive_solver.
Qed.

Lemma Start_throws_unchanged spawn_ok o e :
  (Start spawn_ok o).1 = StartThrow e → (Start spawn_ok o).2 = o.
Proof.
  rewrite Start_spec. by destruct (IsRunning o), spawn_ok.
Qed.

(** After a call of [Start] that returns, [IsRunning] answers true. *)
Lemma IsRunning_after_Start spawn_ok o b :
  (Start spawn_ok o).1 = StartRet b → IsRunning (Start spawn_ok o).2 = true.
Proof.
  rewrite Start_spec. by destruct (IsRunning o) eqn:?, spawn_ok.
Qed.

End start.

(** The worker state of the specification. *)
Inductive WorkerState : Set := NotStarted | Running | StopRequested | Stopped.

#[export] Instance WorkerState_eq_dec : EqDecision WorkerState.
Proof. solve_decision. Defined.

Section lifecycle.
Context {T Env Q : Type} `{!FifoQueue T Q}.
Context (exit_ref : QRef) (e0 : Env).
#[local] Abbreviation Sys := (System T Env Q).
Implicit Types (s : Sys) (evs : list (Event T Env)).

(** The worker state, read off the class: whether a thread was created,
    whether its function is over, and [m_bExit]. *)
Definition worker_state s : WorkerState :=
  if negb (started (wpc s)) then NotStarted
  else if ended (wpc s) then Stopped
  else if m_bExit (obj s) then StopRequested
  else Running.

(** The transitions of the worker state and the events that make them:
    [Start] creates the thread, [Stop] or the destructor asks it to stop,
    and the thread function ends, by returning or by an exception. *)
Inductive LifeStep : WorkerState → Event T Env → WorkerState → Prop :=
| life_start : LifeStep NotStarted (EvStart true) Running
| life_stop : LifeStep Running EvStop StopRequested
| life_destroy : LifeStep Running EvDestroy StopRequested
| life_exit : LifeStep StopRequested EvWorker Stopped
| life_crash : LifeStep Running EvWorker Stopped.

(** A worker that has ended stays ended, and no step handles an item or
    calls the callback. *)
Lemma ended_step s e s' :
  life_inv s → wpc s = WDone → Step exit_ref s e s' →
  wpc s' = WDone ∧ log s' = log s ∧ env s' = env s.
Proof.
  intros [H1 _ _ _ _ _ _ _] Hd Hs. unfold IsRunning in H1.
  step_cases Hs; use_eqs; done.
Qed.

(** There is a thread handle from the moment the thread is created, and
    for ever after. *)
Lemma handle_iff_started s :
  reachable exit_ref e0 s →
  IsRunning (obj s) = true ↔ worker_state s ≠ NotStarted.
Proof.
  intros [[-> _ _ _ _ _ _ _] _ _ _]%reachable_inv. unfold worker_state.
  destruct (started (wpc s)); simpl; [|done].
  by destruct (ended (wpc s)), (m_bExit (obj s)).
Qed.

(** C15. The class implements the state machine of the worker state, without
    the restart: every step of the system leaves the worker state as it is
    or makes one of the transitions NotStarted to Running (by [Start]),
    Running to StopRequested (by [Stop] or the destructor), and
    StopRequested or Running to Stopped (by the worker).  No step leaves
    Stopped. *)
Theorem lifecycle_refines s e s' :
  reachable exit_ref e0 s → Step exit_ref s e s' →
  worker_state s' = worker_state s ∨
  LifeStep (worker_state s) e (worker_state s').
Proof.
  intros [[H1 _ Hx Hf _ Hr _ _] _ _ _]%reachable_inv Hs.
  unfold worker_state, IsRunning in *.
  step_cases Hs; use_eqs; eauto using LifeStep.
  all: try (by case_pc s; eauto using LifeStep).
  all: try (by destruct (wpc s), (m_bExit (obj s)); eauto using LifeStep).
  all: rewrite <- ?H1; destruct (ended (wpc s)), (m_bExit (obj s)); simpl;
    eauto using LifeStep.
  all: by specialize (Hf eq_refl).
Qed.

(** C24. A thread that has ended is never replaced: whatever the clients do
    afterwards, [Start] included, no worker runs again, no item is handled
    and the callback is not called. *)
Theorem no_restart s evs s' :
  reachable exit_ref e0 s → wpc s = WDone →
  run exit_ref evs s = Some s' →
  wpc s' = WDone ∧ log s' = log s ∧ env s' = env s.
Proof.
  intros Hr Hd Hrun.
  apply (run_preserves exit_ref e0
    (λ s1, wpc s1 = WDone ∧ log s1 = log s ∧ env s1 = env s)) in Hrun; [done| |done..].
  intros s1 e s2 [Hi _ _ _]%reachable_inv (Hd1 & Hl1 & He1) Hs.
  destruct (ended_step s1 e s2 Hi Hd1 Hs) as (? & ? & ?).
  split_and!; congruence.
Qed.

(** C25. The handle outlives the thread: when the worker has ended,
    [IsRunning] still answers true and [Start] returns true without
    creating a thread. *)
Theorem stale_handle s spawn_ok :
  reachable exit_ref e0 s → wpc s = WDone →
  IsRunning (obj s) = true ∧ Start spawn_ok (obj s) = (StartRet true, obj s).
Proof.
  intros [[H1 _ _ _ _ _ _ _] _ _ _]%reachable_inv Hd. rewrite Start_spec.
  rewrite H1, Hd. done.
Qed.

(** C8. When [Stop] has set [m_bExit] and returned, the worker thread has
    ended: [Stop] waits for it.  (The process is alive: no exception has
    ended it in the meantime.) *)
Theorem stop_waits s :
  reachable exit_ref e0 s → m_bExit (obj s) = true → in_stop (opc s) = false →
  alive s = true → wpc s = WDone.
Proof.
  intros [Hi _ _ _]%reachable_inv Hx Ho Ha. apply returned_done; [done..|].
  intros Ht. unfold alive in Ha. by rewrite Ht in Ha.
Qed.

(** While the worker runs, the join of line 93 does not return. *)
Lemma join_blocks s k :
  reachable exit_ref e0 s → opc s = OStopJoin k → wpc s ≠ WDone →
  step exit_ref EvOwner s = None.
Proof.
  intros [[_ Hj _ _ _ _ _ _] _ _ _]%reachable_inv Ho Hd. simpl.
  unfold owner_step, Stop_join, StdThread.join. rewrite Ho.
  unfold joined in Hj.
  destruct (m_pThread (obj s)) as [[[]]|]; simpl in *; [|by destruct Hd; auto|done].
  by destruct (wpc s).
Qed.

(** Where the owner stands when [Stop] has returned: between two calls,
    or at the end of the destructor. *)
Definition after_stop (k : Cont) : OwnerPc :=
  match k with
  | KReturn => OIdle
  | KDestroy => ODestroyed
  end.

(** Once the worker has ended, the join of line 93 returns and [Stop]
    hands control back to its caller, with the thread joined. *)
Lemma join_returns s k :
  reachable exit_ref e0 s → opc s = OStopJoin k → wpc s = WDone →
  ∃ s', step exit_ref EvOwner s = Some s' ∧ opc s' = after_stop k ∧
        wpc s' = WDone ∧ joined (m_pThread (obj s')) = true ∧
        log s' = log s ∧ env s' = env s.
Proof.
  intros [[H1 _ _ _ _ _ _ _] _ _ _]%reachable_inv Ho Hd. simpl.
  unfold owner_step, Stop_join, StdThread.join, IsRunning in *.
  rewrite Ho, Hd in *. simpl in *.
  destruct (m_pThread (obj s)) as [[[]]|] eqn:E, k; try done; simpl;
    (eexists; split_and!;
       [reflexivity|unfold destroy_clean; simpl; by rewrite ?E..]).
Qed.

(** C18. [Stop] is idempotent: once a [Stop] has joined the thread, another
    [Stop] runs through its three steps without blocking and leaves the
    whole system as it was. *)
Theorem stop_again s :
  reachable exit_ref e0 s → opc s = OIdle → joined (m_pThread (obj s)) = true →
  run exit_ref [EvStop; EvOwner; EvOwner] s = Some s.
Proof.
  intros [[_ Hj Hx _ _ _ _ _] [Ht _] [Hb _ _ Ha] _]%reachable_inv Ho Hjd.
  specialize (Hj Hjd). rewrite Hj in *. specialize (Hx eq_refl).
  destruct (CondVar.blocked _ _); [by specialize (Hb eq_refl)|].
  destruct s as [[[[[]]|] cv q mt mf pf bx] pc wq op en enq lg];
    simpl in *; by subst.
Qed.

(** C19. [Start(func)] (lines 72-77) on an object without a thread, when no
    call of a callback is in progress: the callback is registered first,
    then the thread is created.  After the first step (line 75) [func] is
    in [m_pFunc] and there is no thread yet; when [Start(func)] returns
    [func] is in [m_pFunc] and the new thread stands at its first line. *)
Theorem start_with_registers_first s f :
  reachable exit_ref e0 s → opc s = OIdle → wpc s = WNotStarted →
  ∃ s1 s', step exit_ref (EvStartWith f) s = Some s1 ∧
        m_pFunc (obj s1) = Some f ∧ IsRunning (obj s1) = false ∧
        wpc s1 = WNotStarted ∧
        step exit_ref (EvStart true) s1 = Some s' ∧
        run exit_ref [EvStartWith f; EvStart true] s = Some s' ∧
        m_pFunc (obj s') = Some f ∧ IsRunning (obj s') = true ∧
        wpc s' = WLoopHead ∧ opc s' = OIdle ∧
        log s' = log s ∧ enqueued s' = enqueued s.
Proof.
  intros [[H1 _ _ _ _ _ _ _] [_ Hf] _ _]%reachable_inv Ho Hpc.
  rewrite Hpc in H1, Hf. unfold IsRunning in *.
  destruct (m_pThread (obj s)) eqn:Hp; [done|].
  pose proof (Step_start_with exit_ref s f Ho Hf) as Hs1.
  set (s1 := s |> on_obj (set_m_pFunc (Some f)) |> set_opc OStartSpawn) in *.
  assert (Step exit_ref s1 (EvStart true)
            (s1 |> on_obj (set_m_pThread (Some (mkThread true)))
                |> set_opc OIdle |> set_wpc WLoopHead)) as Hs2
    by by apply Step_start_spawn; [right|].
  eexists _, _. split; [by apply step_complete|].
  split; [done|]. split; [by simpl; rewrite Hp|]. split; [done|].
  split; [by apply step_complete|].
  split; [by rewrite (run_Step _ _ _ _ _ Hs1), (run_Step _ _ _ _ _ Hs2)|done].
Qed.

(** [Stop] on an object whose thread was never started returns at once and
    changes nothing. *)
Lemma stop_not_started s :
  opc s = OIdle → m_pThread (obj s) = None → step exit_ref EvStop s = Some s.
Proof.
  intros Ho Hp. simpl. unfold may_call, stop_begin, Stop_returns_early.
  rewrite Ho, Hp. simpl. destruct s; simpl in *; by subst.
Qed.

(** C9. The destructor never destroys a joinable thread, so it never calls
    [std::terminate]: the process is terminated only by an exception that
    leaves the callback.  Once the object is gone, no worker is left
    running. *)
Theorem destructor_clean s :
  reachable exit_ref e0 s →
  (opc s = OTerminated → crashed (wpc s) = true) ∧
  (opc s = ODestroyed → worker_absent s).
Proof.
  intros [[H1 Hj _ _ _ _ Hd Ht] _ _ _]%reachable_inv. split.
  { intros Ho. rewrite <- Ht. by apply bool_decide_eq_true. }
  intros Ho. specialize (Hd Ho). unfold worker_absent, destroy_clean,
    IsRunning, joined in *.
  destruct (m_pThread (obj s)); [right; by rewrite (Hj Hd)|left].
  by destruct (wpc s).
Qed.

End lifecycle.
