(* ===== verification/Shutdown.v ===== *)
(** * What [Stop] does to the pending items

    The exit path of the worker (lines 126-131) under the two readings of
    line 128.  If [queue] there is [m_queue] ([QShared]), a worker that
    finds [m_bExit] set when it wakes hands every item enqueued so far to
    the callback before it ends ([exit_drains]); a [Stop] that is called
    while the worker is idle is therefore graceful ([graceful_stop]).  If
    it is an empty local queue ([QLocal]), the worker handles nothing more
    ([exit_abandons]).  Under either reading a worker that finds [m_bExit]
    set at the loop test of line 118 ends at once
    ([stop_right_after_start]). *)

From S2P Require Import Prelude StdQueue Sync State Api Worker System Invariants.
From S2P Require Import Fifo Lifecycle.

Section exit_path.
Context {T Env Q : Type} `{!FifoQueue T Q}.
Context (e0 : Env).
#[local] Abbreviation Sys := (System T Env Q).
Implicit Types (s : Sys) (pc : WorkerPc T) (evs : list (Event T Env)).

(** The worker owns [m_mutexThread] and is bound for the exit path: it is
    testing the predicate of [wait], has passed it, or is inside the call
    of line 128. *)
Definition leaving pc : bool :=
  match pc with
  | WWaitCheck | WAfterWait | WProc RetExit _ => true
  | _ => false
  end.

(** The worker is behind the call of line 128. *)
Definition left_loop pc : bool :=
  match pc with
  | WExitUnlock | WDone => true
  | _ => false
  end.

(** ** Line 128 read as [ProcessQueueData(m_queue)] *)

(** The worker will find [m_bExit] set when it tests the predicate of
    [wait]: it is at [lock.lock()], blocked in [wait], or past them on the
    exit path. *)
Definition heading_out pc : bool :=
  match pc with
  | WLock | WBlocked => true
  | _ => leaving pc
  end.

(** Since [s0] the worker has been on its way to the exit path or on it,
    with a callback registered; or it is out, and what had been enqueued at
    [s0] is handled; or a call has thrown. *)
Definition draining (s0 s : Sys) : Prop :=
  (heading_out (wpc s) = true ∧ m_bExit (obj s) = true ∧
   is_Some (m_pFunc (obj s)) ∧ enqueued s0 `prefix_of` enqueued s)
  ∨ (left_loop (wpc s) = true ∧ enqueued s0 `prefix_of` handled s)
  ∨ crashed (wpc s) = true.

Lemma draining_step s0 s e s' :
  inv s → conserved s → draining s0 s → Step QShared s e s' → draining s0 s'.
Proof.
  unfold draining, conserved, pending, handled.
  intros [Hi [Ht _] _ [Hl _]] Hc [(Hv & Hx & Hf & He)|[[Hv Hp]|Hv]] Hs;
    [| |by destruct (crashed_no_step QShared s e s' Hi Hv Hs)];
    destruct Hi as [H1 _ _ _ _ _ _ _]; unfold IsRunning in H1.
  - step_cases Hs; use_eqs; try done;
      try (by left; split_and!; eauto using prefix_app_r);
      try (by right; right).
    all: try (by case_pc s).
    right; left. split; [done|]. rewrite Hc in He.
    match goal with
    | H : q_empty _ = true |- _ => apply q_empty_true in H as Hq
    end.
    by rewrite Hq, Hl, !app_nil_r in He.
  - right; left. step_cases Hs; use_eqs; try done; try (by case_pc s).
    all: split; [done|]; first [done|rewrite fmap_app; by apply prefix_app_r].
Qed.

Lemma draining_run s0 evs s s' :
  reachable QShared e0 s → draining s0 s →
  run QShared evs s = Some s' → draining s0 s'.
Proof.
  apply (run_preserves QShared e0 (draining s0)).
  intros s1 e s2 Hr. eapply draining_step.
  - by apply reachable_inv in Hr.
  - by eapply reachable_conserved.
Qed.

(** C3. Graceful exit under the reading [QShared]: if the worker wakes in
    [wait] with [m_bExit] set and a callback registered, then by the time
    the thread has ended every item enqueued up to that moment has been
    handled, whatever the other threads do in between. *)
Theorem exit_drains s evs s' :
  reachable QShared e0 s →
  wpc s = WWaitCheck → m_bExit (obj s) = true → is_Some (m_pFunc (obj s)) →
  run QShared evs s = Some s' → wpc s' = WDone →
  enqueued s `prefix_of` handled s'.
Proof.
  intros Hr Hpc Hx Hf Hrun Hd.
  destruct (draining_run s evs s s' Hr) as [(Hv & _)|[[_ Hp]|Hv]];
    [|done| |done|].
  - left. by rewrite Hpc.
  - by rewrite Hd in Hv.
  - by rewrite Hd in Hv.
Qed.

(** [Stop] on an object with a thread handle goes through the critical
    section of lines 85-88. *)
Lemma stop_requested exit_ref k s s1 :
  IsRunning (obj s) = true → step exit_ref (stop_event k) s = Some s1 →
  s1 = (s |> on_obj (set_m_bExit true) |> set_opc (OStopNotify k)).
Proof.
  unfold IsRunning. destruct k; unfold step, stop_begin, Stop_returns_early.
  all: intros Hr Hs; destruct (m_pThread (obj s)); [|done].
  all: destruct (may_call TOwner s); [|done].
  all: destruct (Stop_request TOwner (obj s)) as [o|] eqn:E; [|done].
  all: apply Stop_request_Some in E as [_ ->]; by simplify_eq/=.
Qed.

(** C12. [Stop] is graceful when it finds the worker idle.  Under the reading
    [QShared]: if the owner calls [Stop], or destroys the object, while the
    worker is blocked in [wait] or about to lock [m_mutexThread], and a
    callback is registered, then whatever the other threads do, when [Stop]
    has returned the thread has ended and every item enqueued before the
    call has been handled. *)
Theorem graceful_stop k s s1 evs s' :
  reachable QShared e0 s → wpc s = WLock ∨ wpc s = WBlocked →
  is_Some (m_pFunc (obj s)) →
  step QShared (stop_event k) s = Some s1 → run QShared evs s1 = Some s' →
  opc s' = after_stop k →
  wpc s' = WDone ∧ enqueued s `prefix_of` handled s'.
Proof.
  intros Hr Hpc Hf Hstop Hrun Ho.
  assert (reachable QShared e0 s1) as Hr1
    by (eapply reachable_step; [done|by apply step_sound]).
  assert (inv s') as [Hi' _ _ _] by by eapply reachable_inv, reachable_run.
  pose proof (reachable_inv _ _ _ Hr) as [[H1 _ _ _ _ _ _ _] _ _ _].
  apply stop_requested in Hstop as ->;
    [|rewrite H1; by destruct Hpc as [-> | ->]].
  assert (m_bExit (obj s') = true → wpc s' = WDone) as Hdone.
  { intros Hx. apply returned_done; rewrite ?Ho; by destruct k. }
  destruct (draining_run s evs _ s' Hr1) as [(Hv & Hx & _)|[[Hv Hp]|Hv]];
    [|done| | |].
  - left. split_and!; [simpl; by destruct Hpc as [-> | ->]|done..].
  - by rewrite (Hdone Hx) in Hv.
  - split; [|done]. apply Hdone, (li_exiting _ Hi'). by destruct (wpc s').
  - rewrite <- (li_terminated _ Hi'), Ho in Hv. by destruct k.
Qed.

(** ** Line 128 read as a call on an empty local queue *)

(** The worker is on its way out or out, has no item in its hands and has
    handled nothing since [s0]. *)
Definition abandoning (s0 s : Sys) : Prop :=
  (leaving (wpc s) || left_loop (wpc s) = true) ∧
  (leaving (wpc s) = true → m_bExit (obj s) = true) ∧
  popped (wpc s) = [] ∧ log s = log s0.

Lemma abandoning_step s0 s e s' :
  inv s → abandoning s0 s → Step QLocal s e s' → abandoning s0 s'.
Proof.
  unfold abandoning.
  intros [[H1 _ Hx _ _ _ _ _] [Ht _] _ [Hl _]] (Hv & Hw & Hp & Hlog) Hs.
  unfold IsRunning in H1.
  step_cases Hs; use_eqs; try done; try (by case_pc s).
  all: try (by specialize (Hw eq_refl)).
  all: by specialize (Hl eq_refl);
      match goal with H : q_empty _ = false |- _ => apply q_empty_false in H end.
Qed.

Lemma abandoning_run s0 evs s s' :
  reachable QLocal e0 s → abandoning s0 s →
  run QLocal evs s = Some s' → abandoning s0 s'.
Proof.
  apply (run_preserves QLocal e0 (abandoning s0)).
  intros s1 e s2 Hr. eapply abandoning_step. by apply reachable_inv in Hr.
Qed.

(** C30. No drain under the reading [QLocal]: if the worker wakes in [wait]
    with [m_bExit] set, it handles no further item, whatever is in
    [m_queue] and whatever the other threads do: the items that were
    pending stay in [m_queue] for ever. *)
Theorem exit_abandons s evs s' :
  reachable QLocal e0 s →
  wpc s = WWaitCheck → m_bExit (obj s) = true →
  run QLocal evs s = Some s' →
  log s' = log s ∧ env s' = env s.
Proof.
  intros Hr Hpc Hx Hrun.
  destruct (abandoning_run s evs s s' Hr) as (_ & _ & _ & Hl); [|done|].
  { split_and!; by rewrite ?Hpc. }
  split; [done|].
  rewrite (reachable_replayed QLocal e0 s Hr).
  rewrite (reachable_replayed QLocal e0 s'), Hl; [done|].
  by eapply reachable_run.
Qed.

(** ** [Stop] right after [Start] *)

(** The calls of [AddQueueData] that a list of pairs stands for: the
    thread that calls, and the item it passes. *)
Definition adds (ps : list (Tid * T)) : list (Event T Env) :=
  (λ p, EvAdd p.1 p.2) <$> ps.

(** A schedule of producers only, in any order of the producers: the
    items go to the back of [m_queue] in the order of the calls. *)
Lemma run_adds_by exit_ref ps s :
  Forall (λ p, may_call p.1 s = true) ps →
  m_mutexThread (obj s) = None → m_cv (obj s) = [] →
  run exit_ref (adds ps) s =
    Some (s |> on_obj (set_m_queue (foldl (flip q_push) (m_queue (obj s)) ps.*2))
            |> set_enqueued (enqueued s ++ ps.*2)).
Proof.
  revert s. induction ps as [|[t x] ps IH]; intros s Hc Hm Hcv.
  - destruct s as [[]]; simpl in *. by rewrite app_nil_r.
  - apply Forall_cons in Hc as [Hc Hcs]. unfold adds.
    rewrite fmap_cons, run_cons. unfold step. simpl in *. rewrite Hc.
    rewrite (proj2 (AddQueueData_Some t x (obj s) _) (conj Hm eq_refl)).
    simpl. fold (adds ps). rewrite IH; [|by eapply Forall_impl; [done|intros [[]]]|done..].
    destruct s as [[]]; simpl in *; subst. by rewrite <- app_assoc.
Qed.

(** The same for one producer [t], which enqueues the items of [xs]. *)
Lemma run_adds exit_ref t xs s :
  may_call t s = true → m_mutexThread (obj s) = None → m_cv (obj s) = [] →
  run exit_ref (EvAdd t <$> xs) s =
    Some (s |> on_obj (set_m_queue (foldl (flip q_push) (m_queue (obj s)) xs))
            |> set_enqueued (enqueued s ++ xs)).
Proof.
  intros Hc Hm Hcv.
  pose proof (run_adds_by exit_ref ((t,.) <$> xs) s) as Hr. unfold adds in Hr.
  rewrite <- !list_fmap_compose, list_fmap_id in Hr.
  apply Hr; [|done..]. by apply Forall_fmap, Forall_true.
Qed.

(** The callback [f] is registered, [t] enqueues [xs], and the owner calls
    [Start] and then [Stop] before the new thread has run. *)
Definition hasty_stop (f : Callback T Env) (t : Tid) (xs : list T)
    : list (Event T Env) :=
  EvRegister TOwner f :: (EvAdd t <$> xs)
  ++ [EvStart true; EvStop; EvOwner; EvWorker; EvOwner].

(** C23. Items are lost when [Stop] overtakes the new thread: the worker
    finds [m_bExit] set at the loop test of line 118, so it ends without
    ever reaching line 128.  [Stop] returns with every item still in
    [m_queue] and the callback never called, under either reading of
    line 128. *)
Theorem stop_right_after_start exit_ref f n xs :
  ∃ s', run exit_ref (hasty_stop f (TProducer n) xs) (init e0) = Some s' ∧
    opc s' = OIdle ∧ wpc s' = WDone ∧ log s' = [] ∧ env s' = e0 ∧
    enqueued s' = xs ∧ items (m_queue (obj s')) = xs.
Proof.
  unfold hasty_stop. eexists. rewrite run_cons.
  erewrite step_complete; [|by constructor].
  rewrite bind_Some_l.
  rewrite run_app.
  rewrite run_adds by done.
  rewrite bind_Some_l.
  erewrite run_Step; [|by constructor;[left|]].
  erewrite run_Step; [|by eapply (Step_stop_request _ _ KReturn)].
  erewrite run_Step; [|by eapply Step_stop_notify].
  erewrite run_Step; [|by constructor; [|eapply WS_loop_leave]].
  erewrite run_Step; [|by eapply Step_stop_join].
  simpl.
  split_and!; [reflexivity|done..|].
  simpl. by rewrite items_push_all, items_new.
Qed.


End exit_path.
