(* ===== verification/Termination.v ===== *)
(** * Termination: [Stop] comes to an end, the worker catches up

    Once [m_bExit] is set the worker has a bounded number of steps left:
    [steps_left] counts them, every step of the worker lowers the count
    ([worker_step_decreases]) and a step of another thread raises it by at
    most three, the cost of one more item ([other_step_bounded]).  With the
    progress theorem this gives the schedule-independent bound
    [worker_steps_bounded] and the run [stop_completes] in which the
    worker ends and the join of line 93 returns.  While [m_bExit] is not
    set, the measure [work_left] shows that the worker on its own handles
    everything that is pending and blocks in [wait] ([worker_drains]).
    The worker ends, or catches up, when the callback in the slot returns
    from every call ([safe_slot]). *)

From S2P Require Import Prelude StdQueue Sync State Api Worker System Invariants.
From S2P Require Import Fifo Progress Lifecycle.

Section termination.
Context {T Env Q : Type} `{!FifoQueue T Q}.
Context (exit_ref : QRef) (e0 : Env).
#[local] Abbreviation Sys := (System T Env Q).
Implicit Types (s : Sys) (pc : WorkerPc T) (evs : list (Event T Env)).

(** The steps [ProcessQueueData] has left at most, on a queue of [n]
    items: three for each item (pop, lock, call) and the tests around
    them. *)
Definition proc_cost (p : ProcPc T) (n : nat) : nat :=
  match p with
  | PCheck => 3 * n + 2
  | PLoop => 3 * n + 1
  | PLockFunc _ => 3 * n + 3
  | PInvoke _ => 3 * n + 2
  end.

(** The steps of the exit path, from line 126 to the end of the thread. *)
Definition exit_cost s : nat :=
  proc_cost PCheck (length (items (get_queue exit_ref s))) + 1.

(** The steps the worker has left at most once [m_bExit] is set. *)
Definition steps_left s : nat :=
  match wpc s with
  | WNotStarted | WDone | WTerminate _ => 0
  | WLoopHead | WExitUnlock => 1
  | WProc RetLoop p => proc_cost p (length (items (wqueue s))) + 1
  | WProc RetExit p => proc_cost p (length (items (get_queue exit_ref s))) + 1
  | WAfterWait => exit_cost s + 1
  | WWaitCheck => exit_cost s + 2
  | WLock | WBlocked => exit_cost s + 3
  end.

Lemma worker_step_decreases s s' :
  m_bExit (obj s) = true → WorkerStep exit_ref s s' →
  steps_left s' < steps_left s.
Proof.
  unfold steps_left, exit_cost. intros Hx Hs.
  destruct Hs; repeat match goal with r : Ret |- _ => destruct r end;
    use_eqs; try done;
    try match goal with
      | Hf : q_front ?q = Some _, Hp : q_pop ?q = Some _ |- _ =>
          rewrite (q_front_pop q _ _ Hf Hp) in *
      end;
    destruct exit_ref; simpl in *; autorewrite with qt; simpl; lia.
Qed.

Definition is_worker_event (e : Event T Env) : bool :=
  match e with
  | EvWorker => true
  | _ => false
  end.

Lemma other_step_bounded s e s' :
  is_worker_event e = false → Step exit_ref s e s' →
  steps_left s' ≤ steps_left s + 3.
Proof.
  unfold steps_left, exit_cost. intros He Hs.
  destruct Hs; try done; repeat match goal with k : Cont |- _ => destruct k end;
    simpl; try lia.
  all: destruct (wpc s) as [| | | | | |[] []| | |[]], exit_ref; simpl;
    autorewrite with qt; rewrite ?length_app; simpl; lia.
Qed.

(** The number of worker events in a schedule. *)
Definition worker_events evs : nat := length (filter (λ e, is_worker_event e = true) evs).

(** C7. Once [m_bExit] is set, the steps the worker takes in any schedule
    are bounded by the steps it had left at the start plus three for every
    step of another thread: the worker cannot run for ever after [Stop]
    has asked it to end. *)
Theorem worker_steps_bounded s evs s' :
  m_bExit (obj s) = true → run exit_ref evs s = Some s' →
  worker_events evs + steps_left s' ≤
  steps_left s + 3 * (length evs - worker_events evs).
Proof.
  unfold worker_events.
  revert s. induction evs as [|e evs IH]; intros s Hx Hrun; simpl in Hrun.
  - simplify_eq. simpl. lia.
  - destruct (step exit_ref e s) as [s1|] eqn:He; [|done]. simpl in Hrun.
    apply step_sound in He. pose proof (exit_flag_sticky exit_ref s e s1 He Hx) as Hx1.
    specialize (IH s1 Hx1 Hrun). rewrite filter_cons.
    pose proof (length_filter (λ e, is_worker_event e = true) evs) as Hle.
    destruct (is_worker_event e) eqn:Hw.
    + rewrite decide_True by done. destruct e; try done.
      apply Step_worker_inv in He as [_ Hws].
      pose proof (worker_step_decreases s s1 Hx Hws). simpl. lia.
    + rewrite decide_False by congruence.
      pose proof (other_step_bounded s e s1 Hw He). simpl. lia.
Qed.

(** What a step of the worker leaves alone, when the callback in the slot
    returns from every call. *)
Lemma worker_step_keeps s s' :
  safe_slot s → WorkerStep exit_ref s s' →
  safe_slot s' ∧ opc s' = opc s ∧ m_bExit (obj s') = m_bExit (obj s) ∧
  enqueued s' = enqueued s.
Proof.
  unfold safe_slot. intros Hsafe Hs.
  destruct Hs; repeat match goal with r : Ret |- _ => destruct r end;
    simpl; try done; try (by destruct exit_ref).
  all: match goal with
       | Hf : m_pFunc _ = Some ?f, Ht : cb_ends ?f _ _ = Throws |- _ =>
           by rewrite (Hsafe f Hf) in Ht
       end.
Qed.

(** The worker running on its own, under a property [I] that its steps
    keep and a measure [mu] that they lower, comes to a state in which it
    has no step left, within [mu] steps. *)
Lemma worker_runs_out (I : Sys → Prop) (mu : Sys → nat) :
  (∀ s, I s → safe_slot s) →
  (∀ s s', reachable exit_ref e0 s → I s → WorkerStep exit_ref s s' →
           I s' ∧ mu s' < mu s) →
  ∀ s, reachable exit_ref e0 s → I s → alive s = true →
  ∃ n s', n ≤ mu s ∧ run exit_ref (replicate n EvWorker) s = Some s' ∧
          reachable exit_ref e0 s' ∧ I s' ∧ worker_step exit_ref s' = None ∧
          opc s' = opc s ∧ enqueued s' = enqueued s.
Proof.
  intros Hsafe Hstep s. remember (mu s) as k eqn:Hk. revert s Hk.
  induction (lt_wf k) as [k _ IH]. intros s -> Hr HI Ha.
  destruct (worker_step exit_ref s) as [s1|] eqn:Hs;
    [|by exists 0, s; split_and!; [lia|done..]].
  pose proof Hs as Hw%worker_step_sound.
  destruct (Hstep s s1 Hr HI Hw) as [HI1 Hlt].
  destruct (worker_step_keeps s s1 (Hsafe s HI) Hw) as (_ & Ho & _ & He).
  destruct (IH (mu s1) Hlt s1 eq_refl) as (n & s' & ? & Hrun & ? & ? & ? & ? & ?);
    [by eapply reachable_step, Step_worker|done
    |by unfold alive in *; rewrite Ho|].
  exists (S n), s'. split_and!; [lia| |done..|congruence|congruence].
  simpl. by rewrite Ha, Hs.
Qed.

Lemma stop_completes_run s :
  reachable exit_ref e0 s → m_bExit (obj s) = true → safe_slot s →
  notifying (opc s) = false → alive s = true →
  ∃ n s', n ≤ steps_left s ∧ run exit_ref (replicate n EvWorker) s = Some s' ∧
          wpc s' = WDone ∧ opc s' = opc s.
Proof.
  intros Hr Hx Hsafe Hn Ha.
  destruct (worker_runs_out (λ s1, m_bExit (obj s1) = true ∧ safe_slot s1)
              steps_left)
    with (s := s) as (n & s' & ? & ? & Hr' & [Hx' Hsf] & Hs' & Ho' & _);
    [by intros ? []| |done..|].
  { intros s1 s2 _ [Hx1 Hs1] Hw. split; [|by apply worker_step_decreases].
    destruct (worker_step_keeps s1 s2 Hs1 Hw) as (? & _ & -> & _). done. }
  exists n, s'. split_and!; [done..| |done].
  destruct (worker_can_step exit_ref e0 s' Hr')
    as [[? Hs]|[[Hp|Hp]|[[_ Hb]|Hh]]];
    [congruence| | | |by rewrite safe_not_hung in Hh].
  all: apply reachable_inv in Hr' as [Hi _ [_ _ Hw _] _].
  - destruct Hi as [H1 _ _ Hf _ _ _ _]. by rewrite (Hf Hx'), Hp in H1.
  - assert (alive s' = true) as Ha' by (unfold alive in *; by rewrite Ho').
    pose proof (alive_not_crashed s' Hi Ha'). by destruct (wpc s').
  - rewrite Ho' in Hw. by rewrite (Hw Hb Hx') in Hn.
Qed.

(** C4. [Stop] comes to an end: from any reachable state in which the owner
    stands at the join of line 93 and the callback in the slot returns from
    every call, the worker running on its own ends within [steps_left] steps, and
    then the join returns and [Stop] with it.  No other thread has to
    move. *)
Theorem stop_completes s k :
  reachable exit_ref e0 s → opc s = OStopJoin k → safe_slot s →
  ∃ n s', n ≤ steps_left s ∧
    run exit_ref (replicate n EvWorker ++ [EvOwner]) s = Some s' ∧
    wpc s' = WDone ∧ opc s' = after_stop k.
Proof.
  intros Hr Ho Hsafe.
  pose proof (reachable_inv _ _ _ Hr) as [[_ _ _ _ Hx _ _ _] _ _ _].
  destruct (stop_completes_run s) as (n & s1 & Hn & Hrun & Hd & Ho1);
    [done|by apply Hx; rewrite Ho|done|by rewrite Ho
    |by unfold alive; rewrite Ho|].
  destruct (join_returns exit_ref e0 s1 k) as (s' & Hs & Ho' & Hd' & _);
    [by eapply reachable_run|congruence|done|].
  exists n, s'. split_and!; [done| |done..].
  rewrite run_app, Hrun. simpl in *. by rewrite Hs.
Qed.

(** ** The worker catches up

    While [m_bExit] is not set, the worker running on its own handles
    everything that is pending and goes to sleep. *)

(** The steps from the test of the predicate of [wait] to the end of the
    batch, with [n] items in [m_queue]. *)
Definition wait_cost (n : nat) : nat :=
  match n with
  | 0 => 1
  | _ => 3 * n + 7
  end.

(** The steps the worker has left before it blocks in [wait], as long as
    [m_bExit] is not set and no other thread moves. *)
Definition work_left s : nat :=
  let n := length (items (m_queue (obj s))) in
  match wpc s with
  | WNotStarted | WDone | WExitUnlock | WProc RetExit _ | WTerminate _ => 0
  | WLoopHead => wait_cost n + 2
  | WLock => wait_cost n + 1
  | WWaitCheck => wait_cost n
  | WBlocked =>
      if CondVar.blocked TWorker (m_cv (obj s)) then 0 else wait_cost n + 1
  | WAfterWait => 3 * n + 6
  | WProc RetLoop p => proc_cost p (length (items (wqueue s))) + wait_cost n + 2
  end.

Lemma wait_cost_pos (q : Q) :
  q_empty q = false → wait_cost (length (items q)) = 3 * length (items q) + 7.
Proof. intros Hq%q_empty_false. by destruct (items q). Qed.

Lemma wait_cost_empty (q : Q) :
  q_empty q = true → wait_cost (length (items q)) = 1.
Proof. by intros ->%q_empty_true. Qed.

Lemma worker_step_catches_up s s' :
  life_inv s → m_bExit (obj s) = false → started (wpc s) = true →
  WorkerStep exit_ref s s' →
  started (wpc s') = true ∧ work_left s' < work_left s.
Proof.
  unfold work_left. intros [_ _ Hl _ _ _ _ _] Hx Hst Hs.
  destruct Hs; repeat match goal with r : Ret |- _ => destruct r end;
    repeat match goal with
      | H : wait_pred _ = true |- _ =>
          unfold wait_pred in H; rewrite Hx, orb_false_r in H;
          apply negb_true_iff in H
      | H : CondVar.blocked _ _ = _ |- _ => rewrite H; clear H
      end;
    use_eqs; try done; try (by specialize (Hl eq_refl)); split; try done;
    try match goal with
      | Hf : q_front ?q = Some _, Hp : q_pop ?q = Some _ |- _ =>
          rewrite (q_front_pop q _ _ Hf Hp) in *
      end;
    rewrite ?wait_cost_pos, ?wait_cost_empty by done;
    autorewrite with qt; simpl; lia.
Qed.

(** The worker catches up, and keeps on its way every property [J] that
    its steps keep. *)
Lemma worker_catches_up (J : Sys → Prop) s :
  (∀ s1 s2, reachable exit_ref e0 s1 → J s1 → WorkerStep exit_ref s1 s2 → J s2) →
  reachable exit_ref e0 s → m_bExit (obj s) = false → safe_slot s →
  started (wpc s) = true → alive s = true → J s →
  ∃ n s', n ≤ work_left s ∧
    run exit_ref (replicate n EvWorker) s = Some s' ∧
    reachable exit_ref e0 s' ∧ worker_waiting s' ∧
    handled s' = enqueued s ∧ J s'.
Proof.
  intros HJ Hr Hx Hsafe Hst Ha Hj.
  destruct (worker_runs_out
              (λ s1, (m_bExit (obj s1) = false ∧ started (wpc s1) = true ∧
                      safe_slot s1) ∧ J s1) work_left)
    with (s := s)
    as (n & s' & ? & ? & Hr' & ((Hx' & Hst' & Hsf) & Hj') & Hs' & Ho & He);
    [by intros ? [(_ & _ & ?) _]| |done..|].
  { intros s1 s2 Hr1 [(Hx1 & Hst1 & Hs1) Hj1] Hw.
    pose proof (reachable_inv _ _ _ Hr1) as [Hi _ _ _].
    destruct (worker_step_catches_up s1 s2 Hi Hx1 Hst1 Hw) as [? ?].
    destruct (worker_step_keeps s1 s2 Hs1 Hw) as (? & _ & -> & _). eauto 7. }
  assert (worker_waiting s') as Hw.
  { destruct (worker_can_step exit_ref e0 s' Hr')
      as [[? Hs]|[[Hp|Hp]|[Hw|Hh]]];
      [congruence|by rewrite Hp in Hst'| |done|by rewrite safe_not_hung in Hh].
    apply reachable_inv in Hr' as [Hi _ _ _].
    assert (alive s' = true) as Ha' by (unfold alive in *; by rewrite Ho).
    pose proof (alive_not_crashed s' Hi Ha'). destruct Hi as [_ _ Hl _ _ _ _ _].
    destruct (wpc s'); try done. by rewrite Hl in Hx'. }
  exists n, s'. split_and!; [done..| |done].
  rewrite <- He, (reachable_conserved exit_ref e0 s' Hr').
  by rewrite (blocked_nothing_pending exit_ref e0 s' Hr' (proj2 Hw)), app_nil_r.
Qed.

(** C5. No item is left behind: from every reachable state in which a
    thread runs, [m_bExit] is not set and the callback in the slot returns
    from every call, the worker running on its own blocks in [wait] within
    [work_left] steps, and by then every item enqueued has been handled. *)
Theorem worker_drains s :
  reachable exit_ref e0 s → m_bExit (obj s) = false → safe_slot s →
  started (wpc s) = true → alive s = true →
  ∃ n s', n ≤ work_left s ∧
    run exit_ref (replicate n EvWorker) s = Some s' ∧
    worker_waiting s' ∧ handled s' = enqueued s.
Proof.
  intros Hr Hx Hsafe Hst Ha.
  destruct (worker_catches_up (λ _, True) s)
    as (n & s' & ? & ? & _ & ? & ? & _); [done..|].
  by exists n, s'.
Qed.

End termination.
