(* ===== verification/LoopTest.v ===== *)
(** * [m_bExit] found set at the loop test

    The loop of [QueueProcessThread] tests [m_bExit] at its head (line
    118), before the worker takes the mutex: a worker that comes to the
    test with the flag set leaves without looking at [m_queue].  So when
    [Stop] sets the flag while the worker handles a batch, or before the
    new thread has reached the loop, the items in [m_queue] are never
    handled ([loop_test_abandons]), under either reading of line 128. *)

From S2P Require Import Prelude StdQueue Sync State Api Worker System Invariants.
From S2P Require Import Fifo.

Section loop_test.
Context {T Env Q : Type} `{!FifoQueue T Q}.
Context (exit_ref : QRef) (e0 : Env).
#[local] Abbreviation Sys := (System T Env Q).
Implicit Types (s : Sys) (pc : WorkerPc T) (evs : list (Event T Env)).

(** The worker will come to the loop test of line 118 before it looks at
    [m_queue] again: it is at the test or inside the loop body with its
    batch, or the thread function is over. *)
Definition passing_by pc : bool :=
  match pc with
  | WLoopHead | WProc RetLoop _ | WDone | WTerminate _ => true
  | _ => false
  end.

(** The items in the worker's hands: the one it has popped and those of
    its local queue. *)
Definition in_hand s : list T := popped (wpc s) ++ items (wqueue s).

(** Since [s0] the worker has handled items of its own batch only, and
    has taken nothing out of [m_queue]. *)
Definition bypassing (s0 s : Sys) : Prop :=
  passing_by (wpc s) = true ∧ m_bExit (obj s) = true ∧
  handled s ++ in_hand s = handled s0 ++ in_hand s0 ∧
  items (m_queue (obj s0)) `prefix_of` items (m_queue (obj s)).

Lemma bypassing_step s0 s e s' :
  life_inv s → bypassing s0 s → Step exit_ref s e s' → bypassing s0 s'.
Proof.
  unfold bypassing, in_hand, handled.
  intros [H1 _ _ _ _ _ _ _] (Hv & Hx & <- & Hq) Hs. unfold IsRunning in H1.
  step_cases Hs; use_eqs; try done;
    try match goal with
      | Hf : q_front ?q = Some _, Hp : q_pop ?q = Some _ |- _ =>
          rewrite (q_front_pop q _ _ Hf Hp) in *
      end;
    rewrite ?fmap_app, ?handled_discard; autorewrite with qt;
    rewrite <- ?app_assoc; try (by case_pc s).
  all: split_and!; first [done|by apply prefix_app_r].
Qed.

(** C17. Items are left behind whenever the worker meets [m_bExit] at the
    loop test.  If [m_bExit] is set while the worker is at the test of line
    118 or inside the loop body, then under either reading of line 128 and
    whatever the threads do, the worker handles the items it holds and
    nothing else: what is in [m_queue] stays there. *)
Theorem loop_test_abandons s evs s' :
  reachable exit_ref e0 s → m_bExit (obj s) = true →
  passing_by (wpc s) = true → run exit_ref evs s = Some s' →
  handled s' ++ in_hand s' = handled s ++ in_hand s ∧
  items (m_queue (obj s)) `prefix_of` items (m_queue (obj s')).
Proof.
  intros Hr Hx Hv Hrun.
  apply (run_preserves exit_ref e0 (bypassing s)) in Hrun as (_ & _ & ? & ?);
    [done| |done..].
  intros s1 e s2 [Hi _ _ _]%reachable_inv. by apply bypassing_step.
Qed.

End loop_test.
