(* ===== verification/Readings.v ===== *)
(** * The two readings of line 128

    Line 128 passes the name [queue] to [ProcessQueueData] before [queue]
    is declared, and the model takes what the name stands for as the
    parameter [exit_ref].  The worker comes to line 128 only when it has
    found [m_bExit] set inside the loop, and only [Stop] sets [m_bExit]:
    as long as neither [Stop] nor the destructor is called, the class
    behaves in the same way under both readings
    ([readings_agree_until_stop]). *)

From S2P Require Import Prelude StdQueue Sync State Api Worker System Invariants.

Section readings.
Context {T Env Q : Type} `{!FifoQueue T Q}.
Context (e0 : Env).
#[local] Abbreviation Sys := (System T Env Q).
Implicit Types (s : Sys) (e : Event T Env) (evs : list (Event T Env)).

(** The event is not a call of [Stop] or of the destructor. *)
Definition no_stop e : bool :=
  match e with
  | EvStop | EvDestroy => false
  | _ => true
  end.

(** Off the exit path the worker does not look at [exit_ref]. *)
Lemma worker_step_reading s :
  exiting (wpc s) = false → worker_step QLocal s = worker_step QShared s.
Proof. unfold worker_step. by destruct (wpc s) as [| | | | | |[] ?| | |]. Qed.

Lemma step_reading e s :
  exiting (wpc s) = false → step QLocal e s = step QShared e s.
Proof. intros Hx. destruct e; simpl; by rewrite ?worker_step_reading. Qed.

(** Only [Stop] sets [m_bExit]. *)
Lemma no_stop_step exit_ref s e s' :
  life_inv s → m_bExit (obj s) = false → no_stop e = true →
  Step exit_ref s e s' → m_bExit (obj s') = false.
Proof.
  intros [_ _ _ _ Hst _ _ _] Hx He Hs.
  step_cases Hs; use_eqs; try done.
  all: by specialize (Hst eq_refl).
Qed.

Lemma readings_agree evs s :
  reachable QShared e0 s → m_bExit (obj s) = false →
  Forall (λ e, no_stop e = true) evs →
  run QLocal evs s = run QShared evs s.
Proof.
  revert s. induction evs as [|e evs IH]; intros s Hr Hx Hevs; [done|].
  apply Forall_cons in Hevs as [He Hevs].
  pose proof (reachable_inv _ _ _ Hr) as [Hi _ _ _].
  simpl. rewrite step_reading.
  2:{ destruct (exiting (wpc s)) eqn:Hp; [|done].
      by rewrite (li_exiting _ Hi Hp) in Hx. }
  destruct (step QShared e s) as [s1|] eqn:Hs; [simpl|done].
  apply step_sound in Hs. apply IH; [by eapply reachable_step| |done].
  by eapply no_stop_step.
Qed.

(** C31. The reading of line 128 matters only once [Stop] has been called:
    a schedule in which neither [Stop] nor the destructor is called runs
    in the same way under both readings, step by step, blocked calls
    included, and ends in the same state. *)
Theorem readings_agree_until_stop evs :
  Forall (λ e, no_stop e = true) evs →
  run QLocal evs (init e0 : Sys) = run QShared evs (init e0).
Proof. intros Hevs. by apply readings_agree; [apply reachable_init| |]. Qed.

End readings.
