(* ===== verification/Callback.v ===== *)
(** * The callback slot

    [m_pFunc] is read by the worker at two places: the test of line 144,
    once for each batch, and the call of line 155, once for each item and
    under [m_mutexFunc].  [log_step] says what a step can add to the
    history and whether it ends the process; from it: every call goes to
    the callback that is registered at the moment of the call, once a
    callback is registered no item is ever discarded, and a batch that
    meets an empty slot at line 144 is discarded whole. *)

From S2P Require Import Prelude StdQueue Sync State Api Worker System Invariants.
From S2P Require Import Fifo.

Section callback.
Context {T Env Q : Type} `{!FifoQueue T Q}.
Context (exit_ref : QRef) (e0 : Env).
#[local] Abbreviation Sys := (System T Env Q).
Implicit Types (s : Sys) (lg : list (T * Outcome T Env)) (q : Q).

(** The items that were discarded without a call, oldest first. *)
Definition dropped lg : list T :=
  omap (λ en, match en.2 with Dropped => Some en.1 | Delivered _ => None end) lg.

Lemma dropped_app lg1 lg2 : dropped (lg1 ++ lg2) = dropped lg1 ++ dropped lg2.
Proof. apply omap_app. Qed.

Lemma dropped_discard q : dropped (discard q) = items q.
Proof.
  unfold discard, dropped. induction (items q) as [|x l IH]; [done|].
  simpl. f_equal. exact IH.
Qed.

Lemma discard_empty q :
  q_empty q = true → (discard q : list (T * Outcome T Env)) = [].
Proof. intros Hq%q_empty_true. unfold discard. by rewrite Hq. Qed.

(** An entry of [discard] is never a call. *)
Lemma discard_not_call q x (f : Callback T Env) :
  (x, Delivered f) ∉ discard q.
Proof. unfold discard. intros (y & [=] & _)%list_elem_of_fmap. Qed.

(** What a step adds to the history: nothing, one call of the registered
    callback (which returns or throws), or a batch discarded at line 144. *)
Inductive LogStep s (e : Event T Env) s' : Prop :=
| log_same :
    log s' = log s → env s' = env s → crashed (wpc s') = false →
    LogStep s e s'
| log_call r x f :
    e = EvWorker → wpc s = WProc r (PInvoke x) → m_pFunc (obj s) = Some f →
    log s' = log s ++ [(x, Delivered f)] → env s' = f x (env s) →
    cb_ends f x (env s) ≠ Hangs →
    crashed (wpc s') = bool_decide (cb_ends f x (env s) = Throws) →
    LogStep s e s'
| log_drop :
    e = EvWorker → wpc s = WProc RetLoop PCheck → m_pFunc (obj s) = None →
    log s' = log s ++ discard (wqueue s) → env s' = env s →
    crashed (wpc s') = false →
    LogStep s e s'.

Lemma log_step s e s' : life_inv s → Step exit_ref s e s' → LogStep s e s'.
Proof.
  intros Hi Hs. pose proof (step_not_crashed exit_ref s e s' Hi Hs) as Hc.
  step_cases Hs;
    try match goal with
      | H : q_empty _ = true |- _ => apply discard_empty in H as Hd
      end;
    first [by apply log_same; simpl; rewrite ?Hd, ?app_nil_r
          |by apply log_drop
          |eapply log_call; simpl; eauto;
           match goal with H : cb_ends _ _ _ = _ |- _ => by rewrite H end].
Qed.

(** A callback, once registered, is never removed. *)
Lemma registered_step s e s' :
  Step exit_ref s e s' → is_Some (m_pFunc (obj s)) → is_Some (m_pFunc (obj s')).
Proof. intros Hs Hf. step_cases Hs; eauto. Qed.

(** C20. Every call goes to the callback that is registered at the moment
    of the call, with [m_mutexFunc] held by the worker: a step that records
    the call of [f] on [x] found [f] in [m_pFunc], its effect on the
    callbacks' state is that of [f x], and it ends the process exactly when
    the call throws. *)
Theorem call_uses_registered s e s' x f :
  reachable exit_ref e0 s →
  Step exit_ref s e s' → log s' = log s ++ [(x, Delivered f)] →
  e = EvWorker ∧ m_pFunc (obj s) = Some f ∧
  m_mutexFunc (obj s) = Some TWorker ∧ env s' = f x (env s) ∧
  crashed (wpc s') = bool_decide (cb_ends f x (env s) = Throws).
Proof.
  intros [Hi [_ Hm] _ _]%reachable_inv Hs Hl.
  destruct (log_step s e s' Hi Hs) as [Hl'|r y g He Hpc Hf Hl' ? _ Hc|He _ _ Hl' _ _];
    rewrite Hl' in Hl.
  - apply (f_equal length) in Hl. rewrite length_app in Hl. simpl in Hl. lia.
  - apply app_inv_head in Hl. rewrite Hpc in Hm. by simplify_eq.
  - apply app_inv_head in Hl. destruct (discard_not_call (wqueue s) x f).
    rewrite Hl. set_solver.
Qed.

(** C21. Once a callback is registered no item is discarded any more: every
    item the worker handles from then on is passed to a callback. *)
Theorem registered_never_drops s evs s' :
  reachable exit_ref e0 s → is_Some (m_pFunc (obj s)) →
  run exit_ref evs s = Some s' →
  is_Some (m_pFunc (obj s')) ∧ dropped (log s') = dropped (log s).
Proof.
  intros Hr Hf.
  apply (run_preserves exit_ref e0
    (λ s1, is_Some (m_pFunc (obj s1)) ∧ dropped (log s1) = dropped (log s)));
    [|done..].
  intros s1 e s2 [Hi _ _ _]%reachable_inv [Hf1 Hd1] Hs.
  split; [by eapply registered_step|].
  destruct (log_step s1 e s2 Hi Hs) as [Hl|r y g _ _ _ Hl _ _ _|_ _ Hn Hl]; rewrite Hl.
  - done.
  - by rewrite dropped_app, app_nil_r.
  - rewrite Hn in Hf1. by destruct Hf1.
Qed.

(** C28. The test of line 144 is made once for a batch: a batch that the
    worker has swapped out while no callback was registered is discarded
    whole, without a call, and the worker goes back to the loop test. *)
Theorem null_callback_drops_batch s :
  wpc s = WProc RetLoop PCheck → m_pFunc (obj s) = None →
  ∃ s', worker_step exit_ref s = Some s' ∧ wpc s' = WLoopHead ∧
        dropped (log s') = dropped (log s) ++ items (wqueue s) ∧
        delivered (log s') = delivered (log s) ∧ env s' = env s ∧
        items (wqueue s') = [].
Proof.
  intros Hpc Hf. unfold worker_step, proc_step. rewrite Hpc, Hf.
  eexists. split_and!; [done..| | |done|]; simpl.
  - by rewrite dropped_app, dropped_discard.
  - by rewrite delivered_app, delivered_discard, app_nil_r.
  - apply items_new.
Qed.

End callback.
