(* ===== verification/Delivery.v ===== *)
(** * From [AddQueueData] to the callback and back

    The round trip of the items through the class: a callback is
    registered, any number of threads enqueue items in any order, the
    thread is started, and the worker runs until it has nothing left to
    do.  The callback has then been called on every item, once, in the
    order in which the items went into [m_queue], and on nothing else
    ([delivery_roundtrip]).  This is the path on which nothing is lost:
    the worker reaches [wait] before anybody calls [Stop]. *)

From S2P Require Import Prelude StdQueue Sync State Api Worker System Invariants.
From S2P Require Import Fifo Progress Lifecycle Shutdown Termination Callback.

Section delivery.
Context {T Env Q : Type} `{!FifoQueue T Q}.
Context (exit_ref : QRef) (e0 : Env).
#[local] Abbreviation Sys := (System T Env Q).
Implicit Types (s : Sys) (f : Callback T Env) (lg : list (T * Outcome T Env)).
Implicit Types (ps : list (Tid * T)).

(** Every item of the history was passed to [f]. *)
Definition all_to f lg : Prop := Forall (λ en, en.2 = Delivered f) lg.

(** The slot holds [f], and [f] has been called on every item handled so
    far. *)
Definition served f s : Prop := m_pFunc (obj s) = Some f ∧ all_to f (log s).

(** The state of the callbacks after the calls of [f] on the items of
    [xs], in order. *)
Definition calls f (xs : list T) (e : Env) : Env := foldl (λ e x, f x e) e xs.

(** The callback is registered, the items are enqueued, the thread is
    started and the worker takes [n] steps. *)
Definition enqueue_then_start f ps (n : nat) : list (Event T Env) :=
  EvRegister TOwner f :: adds ps ++ EvStart true :: replicate n EvWorker.

(** Such a history is its items, each with a call of [f]. *)
Lemma all_to_log f lg : all_to f lg → lg = (λ x, (x, Delivered f)) <$> lg.*1.
Proof.
  induction 1 as [|[x o] lg Ho _ IH]; [done|].
  simpl in Ho. subst o. rewrite !fmap_cons. simpl. by f_equal.
Qed.

Lemma delivered_calls f (xs : list T) :
  delivered ((λ x, (x, Delivered f)) <$> xs) = xs.
Proof.
  induction xs as [|x xs IH]; [done|].
  change (x :: delivered ((λ x, (x, Delivered f)) <$> xs) = x :: xs).
  by rewrite IH.
Qed.

Lemma replay_calls f (xs : list T) e :
  replay ((λ x, (x, Delivered f)) <$> xs) e = calls f xs e.
Proof. revert e. induction xs as [|x xs IH]; intros e; [done|apply IH]. Qed.

(** The worker calls the callback it finds in the slot, and leaves the
    slot alone. *)
Lemma served_step f s s' :
  served f s → WorkerStep exit_ref s s' → served f s'.
Proof.
  unfold served, all_to. intros [Hf Hl] Hw.
  destruct Hw; repeat match goal with r : Ret |- _ => destruct r end;
    try destruct exit_ref;
    simpl in *; try congruence; (split; [done|]); try done;
    try match goal with
      | H : q_empty _ = true |- _ => by rewrite discard_empty, app_nil_r
      end.
  all: apply Forall_app; (split; [done|]); apply Forall_singleton; simpl;
    congruence.
Qed.

(** The state in which the thread is created: [f] is in the slot and the
    items of [ps] are in [m_queue]. *)
Definition loaded f ps : Sys :=
  init e0 |> on_obj (set_m_pFunc (Some f))
          |> on_obj (set_m_queue (foldl (flip q_push) q_new ps.*2))
          |> set_enqueued ps.*2
          |> on_obj (set_m_pThread (Some (mkThread true)))
          |> set_opc OIdle
          |> set_wpc WLoopHead.

Lemma run_loaded f ps evs :
  Forall (λ p, p.1 ≠ TWorker) ps →
  run exit_ref (EvRegister TOwner f :: adds ps ++ EvStart true :: evs) (init e0)
  = run exit_ref evs (loaded f ps).
Proof.
  intros Hps. erewrite run_Step; [|by apply Step_register].
  rewrite run_app, run_adds_by; [|by eapply Forall_impl; [done|intros [[]]]|done..].
  rewrite bind_Some_l. by erewrite run_Step; [|by apply Step_start_spawn; [left|]].
Qed.

Lemma loaded_reachable f ps :
  Forall (λ p, p.1 ≠ TWorker) ps → reachable exit_ref e0 (loaded f ps).
Proof.
  intros Hps. eapply reachable_run; [apply reachable_init|].
  exact (run_loaded f ps [] Hps).
Qed.

Lemma work_left_loaded f ps : work_left (loaded f ps) ≤ 3 * length ps + 9.
Proof.
  unfold work_left. simpl. rewrite items_push_all, items_new. simpl.
  rewrite length_fmap. destruct (length ps); simpl; lia.
Qed.

(** C13. The round trip of the items.  A callback that returns from every
    call is registered, threads other than the worker enqueue items in
    any order, and the thread is started.  Then within three steps for
    each item and nine more the worker is blocked in [wait] with [m_queue]
    empty, and the callback has been called on exactly the items that were
    enqueued, once each, in the order of the calls of [AddQueueData]: the
    state the callbacks act on is the result of these calls. *)
Theorem delivery_roundtrip f ps :
  always_returns f → Forall (λ p, p.1 ≠ TWorker) ps →
  ∃ n s', n ≤ 3 * length ps + 9 ∧
    run exit_ref (enqueue_then_start f ps n) (init e0) = Some s' ∧
    worker_waiting s' ∧ items (m_queue (obj s')) = [] ∧
    log s' = (λ x, (x, Delivered f)) <$> ps.*2 ∧
    delivered (log s') = ps.*2 ∧ env s' = calls f ps.*2 e0.
Proof.
  intros Hf Hps.
  destruct (worker_catches_up exit_ref e0 (served f) (loaded f ps))
    as (n & s' & Hn & Hrun & Hr' & Hw & Hh & Hfs & Hl);
    [by intros; eapply served_step|by apply loaded_reachable|done
    |by intros g [= <-]|done..|by split; [|apply Forall_nil]|].
  exists n, s'. apply all_to_log in Hl. unfold handled in Hh. simpl in Hh.
  rewrite Hh in Hl.
  split_and!; [pose proof (work_left_loaded f ps); lia| |done| |done| |].
  - unfold enqueue_then_start. by rewrite run_loaded.
  - eapply q_empty_true, (wi_idle _ (inv_wait _ (reachable_inv _ _ _ Hr'))).
    apply Hw.
  - by rewrite Hl, delivered_calls.
  - by rewrite (reachable_replayed exit_ref e0 s' Hr'), Hl, replay_calls.
Qed.

End delivery.
