(* ===== verification/Failure.v ===== *)
(** * A call of the callback that does not return

    Nothing in [QueueProcessThread] or [ProcessQueueData] guards the call
    of line 155.  A call that throws ends the process: the exception leaves
    the thread function and [std::thread] calls [std::terminate]
    ([throw_is_fatal]); an empty [std::function] passes the test of line 144
    and throws at the first item ([empty_function_is_fatal]).  A call that
    never returns keeps the worker at line 155 with [m_mutexFunc] in its
    hands: nothing is handled any more, registrations block, and a [Stop]
    that is called never returns ([hung_call_blocks]).  Neither happens as
    long as every callback that is registered returns from every call
    ([safe_schedule_never_crashes]). *)

From S2P Require Import Prelude StdQueue Sync State Api Worker System Invariants.
From S2P Require Import Progress.

Section failure.
Context {T Env Q : Type} `{!FifoQueue T Q}.
Context (exit_ref : QRef) (e0 : Env).
#[local] Abbreviation Sys := (System T Env Q).
Implicit Types (s : Sys) (e : Event T Env) (evs : list (Event T Env)).

(** The event registers no callback that could throw or hang. *)
Definition safe_event e : Prop :=
  match e with
  | EvRegister _ f | EvStartWith f => always_returns f
  | _ => True
  end.

(** What the worker and the callbacks have done so far. *)
Definition progress_of s : WorkerPc T * list (T * Outcome T Env) * Env :=
  (wpc s, log s, env s).

(** ** A call that throws *)

(** After [std::terminate] no thread takes a step. *)
Lemma terminated_no_step s e : opc s = OTerminated → step exit_ref e s = None.
Proof.
  intros Ho. assert (∀ t, may_call t s = false) as Hm.
  { intros []; simpl; unfold alive; by rewrite ?Ho. }
  destruct e; simpl; rewrite ?Hm; unfold alive, owner_step; by rewrite ?Ho.
Qed.

Lemma safe_step s e s' :
  safe_slot s → safe_event e → Step exit_ref s e s' →
  safe_slot s' ∧ (crashed (wpc s) = false → crashed (wpc s') = false).
Proof.
  unfold safe_slot. intros Hsafe He Hs.
  step_cases Hs; split; try done; try (by intros; simplify_eq).
  all: try (by destruct exit_ref).
  all: match goal with
       | Hf : m_pFunc _ = Some ?f, Ht : cb_ends ?f _ _ = Throws |- _ =>
           by rewrite (Hsafe f Hf) in Ht
       end.
Qed.

Lemma safe_run evs s s' :
  safe_slot s → crashed (wpc s) = false → Forall safe_event evs →
  run exit_ref evs s = Some s' →
  safe_slot s' ∧ crashed (wpc s') = false.
Proof.
  revert s. induction evs as [|e evs IH]; intros s Hs Hc Hevs Hrun;
    simpl in Hrun; [by simplify_eq|].
  destruct (step exit_ref e s) as [s1|] eqn:He; [|done].
  apply step_sound in He. apply Forall_cons in Hevs as [He1 Hevs].
  destruct (safe_step s e s1 Hs He1 He) as [Hs1 Hc1]. eauto.
Qed.

(** ** A call that hangs *)

(** While a call hangs, no step changes the control point of the worker,
    the history, the state of the callbacks or the callback slot. *)
Lemma hung_step s e s' :
  inv s → hung s = true → Step exit_ref s e s' →
  progress_of s' = progress_of s ∧ m_pFunc (obj s') = m_pFunc (obj s).
Proof.
  unfold hung, progress_of.
  intros [[H1 _ _ _ _ _ _ _] [_ Hf] _ _] Hh Hs. unfold IsRunning in H1.
  step_cases Hs; use_eqs; try done.
  all: try (by case_pc s).
  all: by apply bool_decide_eq_true in Hh; congruence.
Qed.

Lemma hung_stable s s' :
  progress_of s' = progress_of s → m_pFunc (obj s') = m_pFunc (obj s) →
  hung s' = hung s.
Proof. unfold hung, progress_of. by intros [= -> _ ->] ->. Qed.

Lemma hung_run s evs s' :
  reachable exit_ref e0 s → hung s = true → run exit_ref evs s = Some s' →
  hung s' = true ∧ progress_of s' = progress_of s.
Proof.
  intros Hr Hh.
  apply (run_preserves exit_ref e0
    (λ s1, hung s1 = true ∧ progress_of s1 = progress_of s)); [|done..].
  intros s1 e s2 Hi%reachable_inv [Hh1 Hp1] Hs.
  destruct (hung_step s1 e s2 Hi Hh1 Hs) as [Hp Hf].
  split; [by rewrite (hung_stable s1 s2)|congruence].
Qed.

(** The worker holds [m_mutexFunc] during the call. *)
Lemma hung_holds_mutex s :
  lock_inv s → hung s = true → m_mutexFunc (obj s) = Some TWorker.
Proof.
  unfold hung. intros [_ ->] Hh. by destruct (wpc s) as [| | | | | |r []| | |].
Qed.

(** C10. A call that throws ends the process: the step of line 155 records
    the call and what it did to the callbacks' state, and leaves a state
    in which no thread can move: no item is handled, no call returns,
    [Stop] neither begins nor ends. *)
Theorem throw_is_fatal s r x f :
  alive s = true → wpc s = WProc r (PInvoke x) →
  m_pFunc (obj s) = Some f → cb_ends f x (env s) = Throws →
  ∃ s', step exit_ref EvWorker s = Some s' ∧
    crashed (wpc s') = true ∧ opc s' = OTerminated ∧
    log s' = log s ++ [(x, Delivered f)] ∧ env s' = f x (env s) ∧
    ∀ e, step exit_ref e s' = None.
Proof.
  intros Ha Hpc Hf Ht.
  exists (s |> set_env (f x (env s))
            |> set_log (log s ++ [(x, Delivered f)])
            |> terminate r).
  split_and!; [|done..|by intros; apply terminated_no_step].
  simpl. rewrite Ha. unfold worker_step, proc_step.
  rewrite Hpc, Hf. simpl. by rewrite Ht.
Qed.

(** C11. As long as every callback that is registered returns from every
    call, no schedule ends the process and none leaves the worker stuck:
    [std::terminate] is never called, neither for an exception nor by the
    destructor (which never destroys a joinable thread), and the worker
    thread can always take its next step unless no thread was started, the
    thread function has returned, or it is blocked in [wait]. *)
Theorem safe_schedule_never_crashes evs s :
  Forall safe_event evs → run exit_ref evs (init e0) = Some s →
  opc s ≠ OTerminated ∧ crashed (wpc s) = false ∧ hung s = false ∧
  safe_slot s ∧
  (is_Some (worker_step exit_ref s) ∨ wpc s = WNotStarted ∨ wpc s = WDone ∨
   worker_waiting s).
Proof.
  intros Hevs Hrun.
  destruct (safe_run evs (init e0) s) as [Hs Hc]; [done..|].
  assert (reachable exit_ref e0 s) as Hr
    by (eapply reachable_run; [apply reachable_init|done]).
  pose proof (safe_not_hung s Hs) as Hh.
  split_and!; [|done..|].
  - intros Ho. apply reachable_inv in Hr as [[_ _ _ _ _ _ _ Ht] _ _ _].
    rewrite Hc in Ht. by apply bool_decide_eq_false in Ht.
  - destruct (worker_can_step exit_ref e0 s Hr) as [?|[[?|He]|[?|?]]];
      [by left|by right; left| |by right; right; right|congruence].
    right; right; left. by destruct (wpc s).
Qed.

(** C16. A call that never returns stops the class for good: whatever the
    other threads do, the worker stays inside the call, no further item is
    handled and the callbacks' state stays as it is; every registration
    blocks on [m_mutexFunc], and a [Stop] that has set [m_bExit] never
    returns. *)
Theorem hung_call_blocks s evs s' :
  reachable exit_ref e0 s → hung s = true → run exit_ref evs s = Some s' →
  hung s' = true ∧ log s' = log s ∧ env s' = env s ∧
  (∀ t f, step exit_ref (EvRegister t f) s' = None) ∧
  (m_bExit (obj s') = true → in_stop (opc s') = true).
Proof.
  intros Hr Hh Hrun.
  destruct (hung_run s evs s' Hr Hh Hrun) as [Hh' [= Hpc Hl He]].
  assert (inv s') as [Hi Hlk _ _] by by eapply reachable_inv, reachable_run.
  split_and!; [done..| |].
  - intros t f. simpl. unfold RegisterQueueProcessFunc, StdMutex.lock_guard,
      StdMutex.lock.
    rewrite (hung_holds_mutex s' Hlk Hh'). by destruct (may_call t s').
  - intros Hx. destruct (in_stop (opc s')) eqn:Ho; [done|].
    destruct Hi as [_ Hj _ _ _ Hret _ _]. unfold hung in Hh'.
    destruct (wpc s') as [| | | | | |r []| | |]; try done.
    by specialize (Hj (Hret Hx Ho eq_refl)).
Qed.

(** C29. An empty [std::function] is a callback as far as the test of
    line 144 can tell: the worker enters the loop, takes the first item
    out of the queue, locks [m_mutexFunc] and calls, and the call throws
    [std::bad_function_call], which ends the process. *)
Theorem empty_function_is_fatal s r x :
  alive s = true → wpc s = WProc r PCheck →
  m_pFunc (obj s) = Some empty_function → m_mutexFunc (obj s) = None →
  q_front (get_queue (ref_of exit_ref r) s) = Some x →
  ∃ s', run exit_ref (replicate 4 EvWorker) s = Some s' ∧
    crashed (wpc s') = true ∧ opc s' = OTerminated ∧
    log s' = log s ++ [(x, Delivered empty_function)] ∧ env s' = env s.
Proof.
  intros Ha Hpc Hf Hm Hx.
  destruct (q_front_Some (get_queue (ref_of exit_ref r) s) x Hx)
    as (Hne & q' & Hp).
  eexists. split.
  - simpl replicate.
    erewrite run_Step; [|by apply Step_worker; [|eapply WS_check_set]].
    erewrite run_Step; [|by apply Step_worker; [|eapply WS_pop]].
    erewrite run_Step.
    2:{ apply Step_worker; [by destruct r, exit_ref|].
        eapply WS_lock_func; [done|by destruct r, exit_ref]. }
    erewrite run_Step; [done|].
    apply Step_worker; [by destruct r, exit_ref|].
    eapply WS_throw; [done|by destruct r, exit_ref|done].
  - by destruct r, exit_ref.
Qed.

End failure.
