(* ===== verification/Spec.v ===== *)
(** * What the class promises: a queue served by one callback

    The contract of [QueueThread<T>] as its clients see it, without threads,
    mutexes or batches: there is one sequence of pending items and one
    callback slot; producers append to the sequence ([LEnqueue]), the owner
    fills the slot ([LRegister]), and the server takes the oldest pending
    item and passes it to the callback in the slot, or discards it when the
    slot is empty ([LHandle]).  A call that throws ends the machine, and
    the server cannot get past a call that does not return.  [Refinement]
    shows that the class implements this machine. *)

From S2P Require Import Prelude StdQueue Sync State.

Section spec.
Context {T Env : Type}.

Record AState := mkAState {
  a_pending : list T;                    (* the items that wait, oldest first *)
  a_func : option (Callback T Env);      (* the callback slot *)
  a_env : Env;                           (* the state the callbacks act on *)
  a_log : list (T * Outcome T Env);      (* what became of the handled items *)
  a_crashed : bool                       (* a call has thrown: all is over *)
}.

Inductive ALabel :=
| LEnqueue (x : T)
| LRegister (f : Callback T Env)
| LHandle.

Definition a_init (e : Env) : AState := mkAState [] None e [] false.

(** The server handles the oldest pending item. *)
Definition a_handle (a : AState) : option AState :=
  match a_pending a with
  | [] => None
  | x :: rest =>
      match a_func a with
      | Some f =>
          let called throws :=
            mkAState rest (a_func a) (f x (a_env a))
              (a_log a ++ [(x, Delivered f)]) throws in
          match cb_ends f x (a_env a) with
          | Returns => Some (called false)
          | Throws => Some (called true)
          | Hangs => None
          end
      | None =>
          Some (mkAState rest (a_func a) (a_env a) (a_log a ++ [(x, Dropped)])
                  false)
      end
  end.

Definition a_step (l : ALabel) (a : AState) : option AState :=
  if a_crashed a then None
  else
    match l with
    | LEnqueue x =>
        Some (mkAState (a_pending a ++ [x]) (a_func a) (a_env a) (a_log a) false)
    | LRegister f =>
        Some (mkAState (a_pending a) (Some f) (a_env a) (a_log a) false)
    | LHandle => a_handle a
    end.

Fixpoint a_run (ls : list ALabel) (a : AState) : option AState :=
  match ls with
  | [] => Some a
  | l :: ls => a' ← a_step l a; a_run ls a'
  end.

(** What the clients put in: the items enqueued and the callbacks
    registered, in order. *)
Definition is_input (l : ALabel) : bool :=
  match l with
  | LHandle => false
  | _ => true
  end.

Definition inputs (ls : list ALabel) : list ALabel :=
  filter (λ l, is_input l = true) ls.

Definition enqueues (ls : list ALabel) : list T :=
  omap (λ l, match l with LEnqueue x => Some x | _ => None end) ls.

Lemma a_run_app ls1 ls2 a : a_run (ls1 ++ ls2) a = a_run ls1 a ≫= a_run ls2.
Proof.
  revert a. induction ls1 as [|l ls1 IH]; intros a; simpl; [done|].
  destruct (a_step l a); simpl; [apply IH|done].
Qed.

Lemma inputs_app ls1 ls2 : inputs (ls1 ++ ls2) = inputs ls1 ++ inputs ls2.
Proof. apply filter_app. Qed.

Lemma inputs_handles n : inputs (replicate n LHandle) = [].
Proof. induction n; [done|]. simpl. by rewrite <- IHn. Qed.

(** With an empty slot the server discards as many items as it is asked
    to handle. *)
Lemma a_run_drops xs rest e lg :
  a_run (replicate (length xs) LHandle) (mkAState (xs ++ rest) None e lg false) =
    Some (mkAState rest None e (lg ++ ((λ x, (x, Dropped)) <$> xs)) false).
Proof.
  revert lg. induction xs as [|x xs IH]; intros lg; simpl.
  - by rewrite app_nil_r.
  - unfold a_step, a_handle. simpl. rewrite IH. by rewrite <- app_assoc.
Qed.

(** One step keeps the items in order: what was handled, then what is
    pending, is what it was, followed by the item enqueued. *)
Lemma a_step_conserved l a a' :
  a_step l a = Some a' →
  (a_log a').*1 ++ a_pending a' = ((a_log a).*1 ++ a_pending a) ++ enqueues [l].
Proof.
  unfold a_step, a_handle.
  destruct a as [[|y rest] [g|] e lg []], l; intros; split_cases;
    simplify_eq/=; rewrite ?fmap_app, ?app_nil_r, <- ?app_assoc; done.
Qed.

(** The contract is first in, first out: after any run of the machine
    the items handled, followed by the pending ones, are the items that
    were there at the start followed by the items enqueued, in order. *)
Theorem a_run_conserved ls a a' :
  a_run ls a = Some a' →
  (a_log a').*1 ++ a_pending a' = (a_log a).*1 ++ a_pending a ++ enqueues ls.
Proof.
  revert a. induction ls as [|l ls IH]; intros a Hr; simpl in Hr.
  - simplify_eq. by rewrite app_nil_r.
  - destruct (a_step l a) as [a1|] eqn:Hs; [|done]. simpl in Hr.
    rewrite (IH a1 Hr), (app_assoc _ _ (enqueues ls)), (a_step_conserved l a a1 Hs).
    rewrite <- !app_assoc. do 2 f_equal.
    change (l :: ls) with ([l] ++ ls). unfold enqueues. by rewrite omap_app.
Qed.

End spec.

Arguments AState : clear implicits.
Arguments ALabel : clear implicits.
