(* ===== verification/Refinement.v ===== *)
(** * The class implements its contract

    [abs] forgets the threads: it maps a state of the system to the state
    of the machine of [Spec] that has the same pending items (those in the
    worker's hands, in its local queue and in [m_queue], in this order),
    the same callback slot, the same history, and the same answer to
    whether a call has thrown.  Every step of the system
    is then a run of the machine with the same input ([refines_step]): a
    step of a producer is an [LEnqueue], a registration is an [LRegister],
    the call of line 155 is an [LHandle], a batch discarded at line 144 is
    one [LHandle] for each of its items, and every other step (locks,
    waits, the swap, [Start], [Stop]) is invisible. *)

From S2P Require Import Prelude StdQueue Sync State Api Worker System Invariants.
From S2P Require Import Fifo Callback Spec.

Section simulation.
Context {T Env Q : Type} `{!FifoQueue T Q}.
Context (exit_ref : QRef) (e0 : Env).
#[local] Abbreviation Sys := (System T Env Q).
Implicit Types (s : Sys) (e : Event T Env) (evs : list (Event T Env)).

Definition abs s : AState T Env :=
  mkAState (pending s) (m_pFunc (obj s)) (env s) (log s) (crashed (wpc s)).

(** What an event puts into the contract. *)
Definition input_of e : list (ALabel T Env) :=
  match e with
  | EvAdd _ x => [LEnqueue x]
  | EvRegister _ f | EvStartWith f => [LRegister f]
  | _ => []
  end.

Definition inputs_of evs : list (ALabel T Env) := evs ≫= input_of.

Lemma abs_init : abs (init e0 : Sys) = a_init e0.
Proof. unfold abs, pending. simpl. by rewrite items_new. Qed.

Lemma inputs_input_of e : inputs (input_of e) = input_of e.
Proof. by destruct e. Qed.

Lemma enqueued_step s e s' :
  Step exit_ref s e s' → enqueued s' = enqueued s ++ enqueues (input_of e).
Proof. intros Hs. step_cases Hs; by rewrite ?app_nil_r. Qed.

Lemma func_step s e s' :
  Step exit_ref s e s' →
  m_pFunc (obj s') =
    match input_of e with
    | [LRegister f] => Some f
    | _ => m_pFunc (obj s)
    end.
Proof. intros Hs. by step_cases Hs. Qed.

(** The order of the items across a step: what was handled and what was
    pending, followed by the item the step enqueues, is what is handled
    and what is pending afterwards. *)
Lemma pending_step s e s' :
  reachable exit_ref e0 s → Step exit_ref s e s' →
  handled s' ++ pending s' = handled s ++ pending s ++ enqueues (input_of e).
Proof.
  intros Hr Hs.
  rewrite <- (reachable_conserved exit_ref e0 s' (reachable_step _ _ _ _ _ Hr Hs)).
  by rewrite (enqueued_step s e s' Hs), (reachable_conserved exit_ref e0 s Hr),
    <- app_assoc.
Qed.

(** A step that leaves the history alone is its input, if it has one. *)
Lemma refines_silent s e s' :
  pending s' = pending s ++ enqueues (input_of e) →
  m_pFunc (obj s') =
    match input_of e with [LRegister f] => Some f | _ => m_pFunc (obj s) end →
  log s' = log s → env s' = env s →
  crashed (wpc s) = false → crashed (wpc s') = false →
  a_run (input_of e) (abs s) = Some (abs s').
Proof.
  unfold abs. intros -> -> -> -> -> ->.
  destruct e; simpl; by rewrite ?app_nil_r.
Qed.

(** Forward simulation: every step of the system is a run of the contract
    from the abstraction of the state before to the abstraction of the
    state after, and the run takes the input of the step and nothing else
    from the clients. *)
Lemma refines_step s e s' :
  reachable exit_ref e0 s → Step exit_ref s e s' →
  ∃ ls, a_run ls (abs s) = Some (abs s') ∧ inputs ls = input_of e.
Proof.
  intros Hr Hs. pose proof (pending_step s e s' Hr Hs) as Hp.
  pose proof (func_step s e s' Hs) as Hf. unfold handled in Hp.
  pose proof (inv_life _ (reachable_inv _ _ _ Hr)) as Hi.
  pose proof (step_not_crashed exit_ref s e s' Hi Hs) as Hc.
  destruct (log_step exit_ref s e s' Hi Hs)
    as [Hl He Hc'|r x f Hev _ Hg Hl He Hh Hc'|Hev _ Hg Hl He Hc'];
    rewrite Hl in Hp; try subst e.
  - exists (input_of e). split; [|apply inputs_input_of].
    apply app_inv_head in Hp. by apply refines_silent.
  - exists [LHandle]. split; [|done]. simpl in *.
    rewrite fmap_app, <- app_assoc, app_nil_r in Hp. apply app_inv_head in Hp.
    unfold abs, a_step, a_handle. simpl.
    rewrite <- Hp, Hf, Hg, Hl, He, Hc, Hc'. simpl.
    by destruct (cb_ends f x (env s)).
  - exists (replicate (length (items (wqueue s))) LHandle).
    split; [|apply inputs_handles]. simpl in *.
    rewrite fmap_app, handled_discard, <- app_assoc, app_nil_r in Hp.
    apply app_inv_head in Hp. unfold abs.
    by rewrite <- Hp, Hf, Hg, Hl, He, Hc, Hc', a_run_drops.
Qed.

Lemma refines_run evs s s' :
  reachable exit_ref e0 s → run exit_ref evs s = Some s' →
  ∃ ls, a_run ls (abs s) = Some (abs s') ∧ inputs ls = inputs_of evs.
Proof.
  revert s. induction evs as [|e evs IH]; intros s Hr Hrun; simpl in Hrun.
  - simplify_eq. by exists [].
  - destruct (step exit_ref e s) as [s1|] eqn:He; [|done]. simpl in Hrun.
    apply step_sound in He.
    destruct (refines_step s e s1 Hr He) as (ls1 & Hr1 & Hi1).
    destruct (IH s1) as (ls2 & Hr2 & Hi2); [by eapply reachable_step|done|].
    exists (ls1 ++ ls2). rewrite a_run_app, Hr1, inputs_app, Hi1, Hi2. done.
Qed.

(** C2. Refinement: whatever a schedule makes the class do from a fresh
    object, the contract can do with the same items enqueued and the same
    callbacks registered, in the same order; it ends with the same pending
    items, the same calls made and the same state of the callbacks. *)
Theorem refinement evs s :
  run exit_ref evs (init e0) = Some s →
  ∃ ls, a_run ls (a_init e0) = Some (abs s) ∧ inputs ls = inputs_of evs.
Proof.
  intros Hrun. rewrite <- abs_init.
  apply refines_run; [apply reachable_init|done].
Qed.

End simulation.
