(* ===== verification/Scenarios.v ===== *)
(** * Concrete runs

    The model instantiated at items that are numbers, a callback that
    appends the item it is given to a list, and [std::queue] as a list;
    schedules that exercise it, callbacks that throw or hang among them;
    and, for the theorems of the other files that have hypotheses, a
    concrete state at which the hypotheses hold (the lemmas named
    [_witness]). *)

From S2P Require Import Prelude StdQueue Sync State Api Worker System.
From S2P Require Import Invariants Wellformed Fifo Callback Spec Refinement.
From S2P Require Import Progress Lifecycle Shutdown Termination LoopTest Failure.
From S2P Require Import Readings Delivery.

(** The callback of the scenarios: it appends its argument to the list of
    the items seen so far. *)
Definition record : Callback nat (list nat) :=
  returning (λ x seen, seen ++ [x]).

(** A slot that holds [record] is safe: [record] returns from every call. *)
Lemma safe_record (s : System nat (list nat) (list nat)) :
  m_pFunc (obj s) = Some record → safe_slot s.
Proof. intros Hs f Hf. rewrite Hs in Hf. by simplify_eq. Qed.

Definition Demo := System nat (list nat) (list nat).

Definition demo_init : Demo := init [].

Definition P0 : Tid := TProducer 0.

(** The worker runs on its own for [n] steps. *)
Definition work (n : nat) : list (Event nat (list nat)) := replicate n EvWorker.

(** [record] is registered, 1, 2 and 3 are enqueued, the thread is started
    and handles the batch; then the owner stops it. *)
Definition sched_batch : list (Event nat (list nat)) :=
  [EvRegister TOwner record; EvAdd P0 1; EvAdd P0 2; EvAdd P0 3; EvStart true]
  ++ work 15 ++ [EvStop; EvOwner; EvWorker; EvOwner].

(** The state [sched_batch] leads to. *)
Definition demo_batch : Demo :=
  default demo_init (run QShared sched_batch demo_init).

Lemma demo_batch_run : run QShared sched_batch demo_init = Some demo_batch.
Proof. by vm_compute. Qed.

Lemma demo_batch_reachable : reachable QShared [] demo_batch.
Proof. eapply reachable_run; [apply reachable_init|apply demo_batch_run]. Qed.

(** The scenario of the specification: the callback has seen 1, 2, 3, in
    this order, when [Stop] returns. *)
Example demo_batch_seen :
  env demo_batch = [1; 2; 3] ∧ opc demo_batch = OIdle ∧
  m_queue (obj demo_batch) = [] ∧ handled demo_batch = [1; 2; 3].
Proof. by vm_compute. Qed.

(** ** More states

    Each is what a schedule leads to from a fresh object, under the reading
    of line 128 given as [exit_ref]. *)
Definition state_after (exit_ref : QRef) (evs : list (Event nat (list nat)))
    : Demo :=
  default demo_init (run exit_ref evs demo_init).

Lemma state_after_reachable exit_ref evs :
  is_Some (run exit_ref evs demo_init) →
  reachable exit_ref [] (state_after exit_ref evs).
Proof.
  intros [s Hs]. eapply reachable_run; [apply reachable_init|].
  unfold state_after. by rewrite Hs.
Qed.

(** The worker sleeps, two items arrive, and [Stop] sets [m_bExit] and
    notifies before the worker has taken the mutex again: the worker wakes
    on the exit path with 1 and 2 pending. *)
Definition sched_exit : list (Event nat (list nat)) :=
  [EvRegister TOwner record; EvStart true] ++ work 3
  ++ [EvAdd P0 1; EvAdd P0 2; EvStop; EvOwner; EvWorker].

Definition demo_exit : Demo := state_after QShared sched_exit.
Definition demo_exit_local : Demo := state_after QLocal sched_exit.

(** The batch 1, 2, 3 is handled and the worker is back in [wait]. *)
Definition sched_idle : list (Event nat (list nat)) :=
  [EvRegister TOwner record; EvAdd P0 1; EvAdd P0 2; EvAdd P0 3; EvStart true]
  ++ work 18.

Definition demo_idle : Demo := state_after QShared sched_idle.

(** The worker holds [m_mutexFunc] and is about to call [record] on 1. *)
Definition demo_call : Demo :=
  state_after QShared
    ([EvRegister TOwner record; EvAdd P0 1; EvStart true] ++ work 7).

(** No callback is registered, and the worker has swapped out 1 and 2. *)
Definition demo_null : Demo :=
  state_after QShared ([EvAdd P0 1; EvAdd P0 2; EvStart true] ++ work 4).

Lemma demo_exit_reachable : reachable QShared [] demo_exit.
Proof. apply state_after_reachable. eexists. by vm_compute. Qed.

Lemma demo_exit_local_reachable : reachable QLocal [] demo_exit_local.
Proof. apply state_after_reachable. eexists. by vm_compute. Qed.

Lemma demo_idle_reachable : reachable QShared [] demo_idle.
Proof. apply state_after_reachable. eexists. by vm_compute. Qed.

(** The two readings of line 128 on the same schedule: the final drain
    delivers 1 and 2, the empty local queue delivers nothing. *)
Example demo_exit_readings :
  env <$> run QShared (work 11 ++ [EvOwner]) demo_exit = Some [1; 2] ∧
  env <$> run QLocal (work 5 ++ [EvOwner]) demo_exit_local = Some [] ∧
  (m_queue ∘ obj) <$> run QLocal (work 5 ++ [EvOwner]) demo_exit_local
    = Some [1; 2].
Proof. by vm_compute. Qed.

(** ** The theorems at these states *)

Lemma handled_prefix_witness : handled demo_batch `prefix_of` enqueued demo_batch.
Proof. exact (handled_prefix QShared [] demo_batch demo_batch_reachable). Defined.

Lemma worker_progress_witness :
  (∃ s', Step QShared demo_exit EvWorker s')
  ∨ worker_absent demo_exit ∨ worker_waiting demo_exit
  ∨ hung demo_exit = true.
Proof.
  exact (worker_progress QShared [] demo_exit demo_exit_reachable eq_refl).
Defined.

(** At [demo_exit] it is the first case that holds: the worker has the
    mutex and takes its next step. *)
Example demo_exit_can_step :
  is_Some (step QShared EvWorker demo_exit) ∧
  wpc demo_exit = WWaitCheck ∧ hung demo_exit = false.
Proof. split; [eexists|]; by vm_compute. Qed.

Lemma add_enabled_witness :
  is_Some (step QShared (EvAdd P0 7) demo_batch) ↔
  may_call P0 demo_batch = true ∧ thread_mutex_at (wpc demo_batch) = None.
Proof. exact (add_enabled QShared [] demo_batch P0 7 demo_batch_reachable). Defined.

Lemma register_enabled_witness :
  is_Some (step QShared (EvRegister P0 record) demo_batch) ↔
  may_call P0 demo_batch = true ∧ func_mutex_at (wpc demo_batch) = None.
Proof.
  exact (register_enabled QShared [] demo_batch P0 record demo_batch_reachable).
Defined.

Lemma refinement_witness :
  ∃ ls, a_run ls (a_init []) = Some (abs demo_batch)
        ∧ inputs ls = inputs_of sched_batch.
Proof. exact (refinement QShared [] sched_batch demo_batch demo_batch_run). Defined.

Lemma exit_drains_witness :
  enqueued demo_exit `prefix_of`
    handled (state_after QShared (sched_exit ++ work 11)).
Proof.
  apply (exit_drains [] demo_exit (work 11)
           (state_after QShared (sched_exit ++ work 11)) demo_exit_reachable).
  - by vm_compute.
  - by vm_compute.
  - by exists record.
  - by vm_compute.
  - by vm_compute.
Defined.

Lemma stop_completes_witness :
  ∃ n s', n ≤ steps_left QShared demo_exit ∧
    run QShared (replicate n EvWorker ++ [EvOwner]) demo_exit = Some s' ∧
    wpc s' = WDone ∧ opc s' = after_stop KReturn.
Proof.
  apply (stop_completes QShared [] demo_exit KReturn demo_exit_reachable);
    [by vm_compute|by apply safe_record].
Defined.

Lemma idle_all_handled_witness :
  handled demo_idle = enqueued demo_idle ∧ pending demo_idle = [].
Proof.
  apply (idle_all_handled QShared [] demo_idle demo_idle_reachable).
  by vm_compute.
Defined.

Lemma worker_steps_bounded_witness :
  worker_events (work 11) +
    steps_left QShared (state_after QShared (sched_exit ++ work 11))
  ≤ steps_left QShared demo_exit + 3 * (length (work 11) - worker_events (work 11)).
Proof.
  apply (worker_steps_bounded QShared demo_exit (work 11)); by vm_compute.
Defined.

Lemma stop_waits_witness : wpc demo_batch = WDone.
Proof.
  apply (stop_waits QShared [] demo_batch demo_batch_reachable); by vm_compute.
Defined.

(** The object is destroyed while the worker sleeps with the batch
    handled: the destructor calls [Stop], which wakes and joins the worker,
    and then destroys the members. *)
Definition sched_destroy : list (Event nat (list nat)) :=
  sched_idle ++ [EvDestroy; EvOwner] ++ work 6 ++ [EvOwner].

Definition demo_destroyed : Demo := state_after QShared sched_destroy.

Example demo_destroyed_state :
  opc demo_destroyed = ODestroyed ∧ wpc demo_destroyed = WDone ∧
  env demo_destroyed = [1; 2; 3] ∧
  m_pThread (obj demo_destroyed) = Some (mkThread false).
Proof. by vm_compute. Qed.

Lemma destructor_clean_witness :
  (opc demo_destroyed = OTerminated → crashed (wpc demo_destroyed) = true) ∧
  (opc demo_destroyed = ODestroyed → worker_absent demo_destroyed).
Proof.
  apply (destructor_clean QShared [] demo_destroyed).
  apply state_after_reachable. eexists. by vm_compute.
Defined.

Lemma stop_again_witness :
  run QShared [EvStop; EvOwner; EvOwner] demo_batch = Some demo_batch.
Proof.
  apply (stop_again QShared [] demo_batch demo_batch_reachable); by vm_compute.
Defined.

Lemma registered_never_drops_witness :
  is_Some (m_pFunc (obj (state_after QShared (sched_exit ++ work 11)))) ∧
  dropped (log (state_after QShared (sched_exit ++ work 11)))
  = dropped (log demo_exit).
Proof.
  apply (registered_never_drops QShared [] demo_exit (work 11) _
           demo_exit_reachable); [by exists record|by vm_compute].
Defined.

(** The state after the call that [demo_call] is about to make. *)
Definition demo_called : Demo :=
  state_after QShared
    ([EvRegister TOwner record; EvAdd P0 1; EvStart true] ++ work 8).

Lemma call_uses_registered_witness :
  (EvWorker : Event nat (list nat)) = EvWorker ∧
  m_pFunc (obj demo_call) = Some record ∧
  m_mutexFunc (obj demo_call) = Some TWorker ∧
  env demo_called = record 1 (env demo_call) ∧
  crashed (wpc demo_called) =
    bool_decide (cb_ends record 1 (env demo_call) = Throws).
Proof.
  apply (call_uses_registered QShared [] demo_call EvWorker demo_called 1 record).
  - apply state_after_reachable. eexists. by vm_compute.
  - apply step_sound. by vm_compute.
  - by vm_compute.
Defined.

Lemma no_restart_witness :
  wpc (state_after QShared (sched_batch ++ [EvStart true; EvAdd P0 4])) = WDone ∧
  log (state_after QShared (sched_batch ++ [EvStart true; EvAdd P0 4]))
  = log demo_batch ∧
  env (state_after QShared (sched_batch ++ [EvStart true; EvAdd P0 4]))
  = env demo_batch.
Proof.
  apply (no_restart QShared [] demo_batch [EvStart true; EvAdd P0 4] _
           demo_batch_reachable); by vm_compute.
Defined.

Lemma stale_handle_witness :
  IsRunning (obj demo_batch) = true ∧
  Start true (obj demo_batch) = (StartRet true, obj demo_batch).
Proof.
  apply (stale_handle QShared [] demo_batch true demo_batch_reachable).
  by vm_compute.
Defined.

Lemma null_callback_drops_batch_witness :
  ∃ s', worker_step QShared demo_null = Some s' ∧ wpc s' = WLoopHead ∧
        dropped (log s') = dropped (log demo_null) ++ items (wqueue demo_null) ∧
        delivered (log s') = delivered (log demo_null) ∧ env s' = env demo_null ∧
        items (wqueue s') = [].
Proof. apply (null_callback_drops_batch QShared demo_null); by vm_compute. Defined.

Lemma exit_abandons_witness :
  log (state_after QLocal (sched_exit ++ work 5)) = log demo_exit_local ∧
  env (state_after QLocal (sched_exit ++ work 5)) = env demo_exit_local.
Proof.
  apply (exit_abandons [] demo_exit_local (work 5) _ demo_exit_local_reachable);
    by vm_compute.
Defined.

Lemma idle_worker_sleeps_witness :
  step QShared EvWorker demo_idle = None ∧
  run QShared [EvSpurious; EvWorker; EvWorker] demo_idle = Some demo_idle.
Proof.
  apply (idle_worker_sleeps QShared [] demo_idle demo_idle_reachable);
    by vm_compute.
Defined.

Lemma handled_NoDup_witness : NoDup (handled demo_batch).
Proof.
  apply (handled_NoDup QShared [] demo_batch demo_batch_reachable).
  change (NoDup [1; 2; 3]).
  repeat (apply NoDup_cons_2; [set_solver|]). apply NoDup_nil_2.
Defined.

Lemma delivered_in_order_witness :
  delivered (log demo_batch) `sublist_of` enqueued demo_batch.
Proof. exact (delivered_in_order QShared [] demo_batch demo_batch_reachable). Defined.

(** The contract on its own: two items are enqueued before a callback is
    registered, and two are handled afterwards. *)
Definition a_demo : list (ALabel nat (list nat)) :=
  [LEnqueue 1; LEnqueue 2; LRegister record; LHandle; LHandle; LEnqueue 3].

Definition a_demo_end : AState nat (list nat) :=
  default (a_init []) (a_run a_demo (a_init [])).

Example a_demo_conserved :
  (a_log a_demo_end).*1 ++ a_pending a_demo_end = [] ++ [] ++ enqueues a_demo.
Proof. apply (a_run_conserved a_demo (a_init []) a_demo_end). by vm_compute. Defined.

Lemma check_races_with_register_witness :
  m_mutexFunc (obj demo_null) = None ∧
  is_Some (step QShared (EvRegister P0 record) demo_null) ∧
  is_Some (step QShared EvWorker demo_null).
Proof.
  apply (check_races_with_register QShared [] demo_null RetLoop P0 record);
    [|by vm_compute..].
  apply state_after_reachable. eexists. by vm_compute.
Defined.

(** The thread has just been created and stands at the loop test. *)
Definition demo_started : Demo :=
  state_after QShared [EvRegister TOwner record; EvStart true].

Lemma loop_test_races_with_stop_witness :
  m_mutexThread (obj demo_started) = None ∧
  (∃ s', step QShared EvStop demo_started = Some s' ∧ m_bExit (obj s') = true) ∧
  is_Some (step QShared EvWorker demo_started).
Proof.
  apply (loop_test_races_with_stop QShared [] demo_started); [|by vm_compute..].
  apply state_after_reachable. eexists. by vm_compute.
Defined.

Lemma lifecycle_refines_witness :
  worker_state
    (state_after QShared [EvRegister TOwner record; EvStart true; EvStop])
  = worker_state demo_started
  ∨ LifeStep (worker_state demo_started) (EvStop : Event nat (list nat))
      (worker_state
         (state_after QShared [EvRegister TOwner record; EvStart true; EvStop])).
Proof.
  apply (lifecycle_refines QShared [] demo_started EvStop).
  - apply state_after_reachable. eexists. by vm_compute.
  - apply step_sound. by vm_compute.
Defined.

(** The worker state along the run of [sched_batch]: before [Start], after
    it, after the call of [Stop] and when [Stop] has returned. *)
Example demo_worker_states :
  worker_state demo_init = NotStarted ∧
  worker_state demo_started = Running ∧
  worker_state
    (state_after QShared [EvRegister TOwner record; EvStart true; EvStop])
  = StopRequested ∧
  worker_state demo_batch = Stopped ∧
  worker_state (state_after QShared (sched_batch ++ [EvStart true])) = Stopped.
Proof. by vm_compute. Qed.

(** Three items are queued and the thread has just been created. *)
Definition demo_loaded : Demo :=
  state_after QShared
    [EvRegister TOwner record; EvAdd P0 1; EvAdd P0 2; EvAdd P0 3; EvStart true].

Lemma worker_drains_witness :
  ∃ n s', n ≤ work_left demo_loaded ∧
    run QShared (replicate n EvWorker) demo_loaded = Some s' ∧
    worker_waiting s' ∧ handled s' = enqueued demo_loaded.
Proof.
  apply (worker_drains QShared [] demo_loaded);
    [|by vm_compute|by apply safe_record|by vm_compute..].
  apply state_after_reachable. eexists. by vm_compute.
Defined.

Lemma start_with_registers_first_witness :
  ∃ s1 s', step QShared (EvStartWith record) demo_init = Some s1 ∧
        m_pFunc (obj s1) = Some record ∧ IsRunning (obj s1) = false ∧
        wpc s1 = WNotStarted ∧
        step QShared (EvStart true) s1 = Some s' ∧
        run QShared [EvStartWith record; EvStart true] demo_init = Some s' ∧
        m_pFunc (obj s') = Some record ∧ IsRunning (obj s') = true ∧
        wpc s' = WLoopHead ∧ opc s' = OIdle ∧
        log s' = log demo_init ∧ enqueued s' = enqueued demo_init.
Proof.
  apply (start_with_registers_first QShared [] demo_init record);
    [apply reachable_init|by vm_compute..].
Defined.

Lemma well_formed_step_witness :
  well_formed (state_after QShared (sched_exit ++ [EvWorker])) = true.
Proof.
  apply (well_formed_step QShared EvWorker demo_exit); by vm_compute.
Defined.

(** A state that no schedule leads to: a fresh object whose [m_bExit] is
    set fails the test. *)
Example demo_ill_formed :
  well_formed (on_obj (set_m_bExit true) demo_init) = false.
Proof. by vm_compute. Qed.

(** The worker sleeps and two items arrive; the owner is about to call
    [Stop]. *)
Definition sched_asleep : list (Event nat (list nat)) :=
  [EvRegister TOwner record; EvStart true] ++ work 3 ++ [EvAdd P0 1; EvAdd P0 2].

Definition demo_asleep : Demo := state_after QShared sched_asleep.

Lemma graceful_stop_witness :
  wpc (state_after QShared (sched_exit ++ work 11 ++ [EvOwner])) = WDone ∧
  enqueued demo_asleep `prefix_of`
    handled (state_after QShared (sched_exit ++ work 11 ++ [EvOwner])).
Proof.
  apply (graceful_stop [] KReturn demo_asleep
           (state_after QShared (sched_asleep ++ [EvStop]))
           ([EvOwner; EvWorker] ++ work 11 ++ [EvOwner])).
  - apply state_after_reachable. eexists. by vm_compute.
  - right. by vm_compute.
  - by exists record.
  - by vm_compute.
  - by vm_compute.
  - by vm_compute.
Defined.

(** [Stop] lands while the worker is inside the call on 1, and 2 has been
    enqueued since the swap. *)
Definition sched_mid_batch : list (Event nat (list nat)) :=
  [EvRegister TOwner record; EvAdd P0 1; EvStart true] ++ work 7
  ++ [EvAdd P0 2; EvStop].

Definition demo_mid_batch : Demo := state_after QShared sched_mid_batch.

Definition sched_finish : list (Event nat (list nat)) :=
  [EvOwner] ++ work 3 ++ [EvOwner].

Lemma loop_test_abandons_witness :
  handled (state_after QShared (sched_mid_batch ++ sched_finish))
    ++ in_hand (state_after QShared (sched_mid_batch ++ sched_finish))
  = handled demo_mid_batch ++ in_hand demo_mid_batch ∧
  items (m_queue (obj demo_mid_batch)) `prefix_of`
    items (m_queue (obj (state_after QShared (sched_mid_batch ++ sched_finish)))).
Proof.
  apply (loop_test_abandons QShared [] demo_mid_batch sched_finish).
  - apply state_after_reachable. eexists. by vm_compute.
  - by vm_compute.
  - by vm_compute.
  - by vm_compute.
Defined.

(** The run of [loop_test_abandons_witness]: [Stop] has returned, the
    callback has seen 1, and 2 is still in [m_queue]. *)
Example demo_stop_mid_batch :
  (λ s, (env s, m_queue (obj s), opc s, wpc s)) <$>
    run QShared (sched_mid_batch ++ sched_finish) demo_init
  = Some ([1], [2], OIdle, WDone).
Proof. by vm_compute. Qed.

(** ** The scenarios of the specification *)

(** A second callback, which records the items it is given with a mark. *)
Definition record_marked : Callback nat (list nat) :=
  returning (λ x seen, seen ++ [100 + x]).

(** Per-item callback currency: the thread is started, 1 is enqueued, and
    a new callback is registered after the worker has called the old one
    on 1; then 2 is enqueued.  Item 1 is seen by the old callback and 2 by
    the new one. *)
Example demo_callback_currency :
  env <$> run QShared
    ([EvRegister TOwner record; EvStart true; EvAdd P0 1] ++ work 8
     ++ [EvRegister TOwner record_marked; EvAdd P0 2] ++ work 13
     ++ [EvStop; EvOwner] ++ work 6 ++ [EvOwner]) demo_init
  = Some [1; 102].
Proof. by vm_compute. Qed.

(** The same with the registration two steps earlier, when the worker has
    popped 1 and waits for [m_mutexFunc]: the call of line 155 reads
    [m_pFunc] after the registration, so the new callback sees both. *)
Example demo_callback_currency_early :
  env <$> run QShared
    ([EvRegister TOwner record; EvStart true; EvAdd P0 1] ++ work 6
     ++ [EvRegister TOwner record_marked; EvAdd P0 2] ++ work 15
     ++ [EvStop; EvOwner] ++ work 6 ++ [EvOwner]) demo_init
  = Some [101; 102].
Proof. by vm_compute. Qed.

(** Several producers before [Start]: three threads enqueue two items each,
    interleaved; after the worker has run, all six have been delivered, once
    each, in the order in which the producers took the mutex. *)
Example demo_producers :
  env <$> run QShared
    ([EvRegister TOwner record;
      EvAdd (TProducer 0) 10; EvAdd (TProducer 1) 20; EvAdd (TProducer 2) 30;
      EvAdd (TProducer 1) 21; EvAdd (TProducer 0) 11; EvAdd (TProducer 2) 31;
      EvStart true] ++ work 24 ++ [EvStop; EvOwner] ++ work 1 ++ [EvOwner])
    demo_init
  = Some [10; 20; 30; 21; 11; 31].
Proof. by vm_compute. Qed.

(** Ten producers enqueue a hundred items each before [Start], taking
    turns; the worker handles the batch and goes to sleep, and the owner
    stops it.  The callback has seen the thousand items, once each, in
    the order in which the producers took the mutex. *)
Definition crowd : list (nat * nat) :=
  i ← seq 0 100; p ← seq 0 10; [(p, 100 * p + i)].

Definition sched_crowd : list (Event nat (list nat)) :=
  EvRegister TOwner record :: ((λ px, EvAdd (TProducer px.1) px.2) <$> crowd)
  ++ [EvStart true] ++ work 3009 ++ [EvStop; EvOwner] ++ work 6 ++ [EvOwner].

Example demo_crowd :
  (λ s, (env s, opc s, wpc s, length (delivered (log s)))) <$>
    run QShared sched_crowd demo_init
  = Some (crowd.*2, OIdle, WDone, 1000).
Proof. by vm_compute. Qed.

(** [Stop] right after [Start], the run of [stop_right_after_start]: the
    callback has seen nothing and the three items are still queued. *)
Example demo_hasty_stop :
  (λ s, (env s, m_queue (obj s), opc s, wpc s)) <$>
    run QShared (hasty_stop record P0 [1; 2; 3]) demo_init
  = Some ([], [1; 2; 3], OIdle, WDone).
Proof. by vm_compute. Qed.

(** ** The round trip *)

(** Two producers and the owner enqueue, in this order. *)
Definition three_callers : list (Tid * nat) :=
  [(TProducer 0, 1); (TProducer 1, 2); (TOwner, 3)].

Lemma delivery_roundtrip_witness :
  ∃ n s', n ≤ 3 * length three_callers + 9 ∧
    run QShared (enqueue_then_start record three_callers n) demo_init = Some s' ∧
    worker_waiting s' ∧ items (m_queue (obj s')) = [] ∧
    log s' = (λ x, (x, Delivered record)) <$> three_callers.*2 ∧
    delivered (log s') = three_callers.*2 ∧
    env s' = calls record three_callers.*2 [].
Proof.
  apply (delivery_roundtrip QShared [] record three_callers); [done|].
  repeat (apply Forall_cons; split; [done|]). apply Forall_nil_2.
Defined.

(** What the callbacks' state is at the end of that run. *)
Example demo_round_trip : calls record three_callers.*2 [] = [1; 2; 3].
Proof. by vm_compute. Qed.

Lemma readings_agree_until_stop_witness :
  run QLocal sched_idle demo_init = run QShared sched_idle demo_init.
Proof.
  apply (readings_agree_until_stop [] sched_idle).
  repeat (apply Forall_cons; split; [done|]). apply Forall_nil_2.
Defined.

(** ** Calls that do not return *)

(** A callback that records the item like [record], but whose call on
    [bad] ends as [c] says. *)
Definition fails_at (bad : nat) (c : Completion) : Callback nat (list nat) :=
  mkCallback (λ x seen, seen ++ [x])
    (λ x _, if bool_decide (x = bad) then c else Returns).

(** 1, 2 and 3 are enqueued, and the worker is about to call the callback
    [f] on 2. *)
Definition sched_second_call (f : Callback nat (list nat))
    : list (Event nat (list nat)) :=
  [EvRegister TOwner f; EvAdd P0 1; EvAdd P0 2; EvAdd P0 3; EvStart true]
  ++ work 10.

Definition demo_throw : Demo :=
  state_after QShared (sched_second_call (fails_at 2 Throws)).

Definition demo_hang : Demo :=
  state_after QShared (sched_second_call (fails_at 2 Hangs)).

(** An empty [std::function] is registered, 1 is enqueued, and the worker
    stands at the test of line 144. *)
Definition demo_empty : Demo :=
  state_after QShared
    ([EvRegister TOwner empty_function; EvAdd P0 1; EvStart true] ++ work 4).

Lemma throw_is_fatal_witness :
  ∃ s', step QShared EvWorker demo_throw = Some s' ∧
    crashed (wpc s') = true ∧ opc s' = OTerminated ∧
    log s' = log demo_throw ++ [(2, Delivered (fails_at 2 Throws))] ∧
    env s' = fails_at 2 Throws 2 (env demo_throw) ∧
    ∀ e, step QShared e s' = None.
Proof.
  apply (throw_is_fatal QShared demo_throw RetLoop 2 (fails_at 2 Throws));
    by vm_compute.
Defined.

(** The run of [throw_is_fatal_witness]: the callback has seen 1 and 2,
    3 is still in the worker's local queue, and the owner cannot even
    call [Stop]. *)
Example demo_throw_run :
  (λ s, (env s, wqueue s, opc s, step QShared EvStop s)) <$>
    run QShared (sched_second_call (fails_at 2 Throws) ++ [EvWorker]) demo_init
  = Some ([1; 2], [3], OTerminated, None).
Proof. by vm_compute. Qed.

Lemma safe_schedule_never_crashes_witness :
  opc demo_destroyed ≠ OTerminated ∧ crashed (wpc demo_destroyed) = false ∧
  hung demo_destroyed = false ∧ safe_slot demo_destroyed ∧
  (is_Some (worker_step QShared demo_destroyed) ∨
   wpc demo_destroyed = WNotStarted ∨ wpc demo_destroyed = WDone ∨
   worker_waiting demo_destroyed).
Proof.
  apply (safe_schedule_never_crashes QShared [] sched_destroy demo_destroyed);
    [|by vm_compute].
  repeat (apply Forall_cons; split; [by simpl|]). apply Forall_nil_2.
Defined.

Lemma hung_call_blocks_witness :
  hung (state_after QShared
          (sched_second_call (fails_at 2 Hangs) ++ [EvAdd P0 4; EvStop; EvOwner]))
    = true ∧
  log (state_after QShared
         (sched_second_call (fails_at 2 Hangs) ++ [EvAdd P0 4; EvStop; EvOwner]))
    = log demo_hang ∧
  env (state_after QShared
         (sched_second_call (fails_at 2 Hangs) ++ [EvAdd P0 4; EvStop; EvOwner]))
    = env demo_hang ∧
  (∀ t f, step QShared (EvRegister t f)
            (state_after QShared
               (sched_second_call (fails_at 2 Hangs)
                ++ [EvAdd P0 4; EvStop; EvOwner])) = None) ∧
  (m_bExit (obj (state_after QShared
                   (sched_second_call (fails_at 2 Hangs)
                    ++ [EvAdd P0 4; EvStop; EvOwner]))) = true →
   in_stop (opc (state_after QShared
                   (sched_second_call (fails_at 2 Hangs)
                    ++ [EvAdd P0 4; EvStop; EvOwner]))) = true).
Proof.
  apply (hung_call_blocks QShared [] demo_hang [EvAdd P0 4; EvStop; EvOwner]).
  - apply state_after_reachable. eexists. by vm_compute.
  - by vm_compute.
  - by vm_compute.
Defined.

(** The run of [hung_call_blocks_witness]: the producer's item is queued,
    the owner is at the join, and neither the worker nor the owner can
    move. *)
Example demo_hang_run :
  (λ s, (env s, m_queue (obj s), opc s,
         step QShared EvWorker s, step QShared EvOwner s)) <$>
    run QShared
      (sched_second_call (fails_at 2 Hangs) ++ [EvAdd P0 4; EvStop; EvOwner])
      demo_init
  = Some ([1], [4], OStopJoin KReturn, None, None).
Proof. by vm_compute. Qed.

Lemma empty_function_is_fatal_witness :
  ∃ s', run QShared (replicate 4 EvWorker) demo_empty = Some s' ∧
    crashed (wpc s') = true ∧ opc s' = OTerminated ∧
    log s' = log demo_empty ++ [(1, Delivered empty_function)] ∧
    env s' = env demo_empty.
Proof.
  apply (empty_function_is_fatal QShared demo_empty RetLoop 1); by vm_compute.
Defined.
